(** * Proyecto_Economica: the evaluation engine of [modules/finances_core.py]

    A shallow embedding of the numerical engine (net present value, internal
    rate of return, benefit/cost ratio, Monte Carlo risk simulation, project
    evaluation and multicriteria ranking) together with the properties the
    specification states about it.

    Number model.  A finite float is embedded as an exact rational ([Q]):
    neither the rounding nor the range of binary64 is modelled, so a result
    is the exact value of the expression the code evaluates, and the
    overflow or underflow of a power is outside the model.  A division by
    an exact zero is modelled as the code performs it: on Python floats it
    raises [ZeroDivisionError]; as soon as an operand is a numpy float64 it
    returns [inf], [-inf] or [nan] and the computation goes on, so numpy
    results are values of [float64], finite or not.  The only zero divisors
    of the engine are powers of [1 + r] at [r = -1] and an element count
    of 0, both [+0.0]. *)

From Stdlib Require Import QArith Qabs Qround Qpower Lqa ZArith List Lia.
From Stdlib Require Import Permutation Sorted.
From stdpp Require Import base strings pretty gmap.

Local Open Scope Q_scope.

(** ** Outcomes of a call *)

Inductive exn : Type :=
| ZeroDivisionError   (* float division by zero on Python floats *)
| ValueError          (* raised by numpy on an invalid argument *)
| IndexError.         (* raised by numpy on an empty array *)

Inductive res (A : Type) : Type :=
| Ok (a : A)
| Raise (e : exn).
Arguments Ok {A} a.
Arguments Raise {A} e.

Definition rbind {A B : Type} (m : res A) (k : A -> res B) : res B :=
  match m with
  | Ok a => k a
  | Raise e => Raise e
  end.

Notation "'let*' x ':=' m 'in' k" := (rbind m (fun x => k))
  (at level 10, x name, m at level 100, k at level 200).

Fixpoint rmap {A B : Type} (g : A -> res B) (l : list A) : res (list B) :=
  match l with
  | [] => Ok []
  | a :: l' => let* b := g a in let* bs := rmap g l' in Ok (b :: bs)
  end.

(** ** Numbers *)

Definition Qltb (a b : Q) : bool := negb (Qle_bool b a).

(** A float that need not be finite: the values numpy computes, and the
    Python floats derived from them. *)
Inductive float64 : Type :=
| Finite (q : Q)
| PosInf
| NegInf
| NaN.

Definition fopp (x : float64) : float64 :=
  match x with
  | Finite a => Finite (- a)
  | PosInf => NegInf
  | NegInf => PosInf
  | NaN => NaN
  end.

Definition fadd (x y : float64) : float64 :=
  match x, y with
  | Finite a, Finite b => Finite (a + b)
  | NaN, _ | _, NaN => NaN
  | PosInf, NegInf | NegInf, PosInf => NaN
  | PosInf, _ | _, PosInf => PosInf
  | NegInf, _ | _, NegInf => NegInf
  end.

Definition fsub (x y : float64) : float64 :=
  match x, y with
  | Finite a, Finite b => Finite (a - b)
  | _, _ => fadd x (fopp y)
  end.

(** The infinity of the sign of [a], and nan for [a = 0]. *)
Definition signed_inf (a : Q) : float64 :=
  if Qltb 0 a then PosInf else if Qltb a 0 then NegInf else NaN.

Definition fmul (x y : float64) : float64 :=
  match x, y with
  | Finite a, Finite b => Finite (a * b)
  | NaN, _ | _, NaN => NaN
  | Finite a, PosInf | PosInf, Finite a => signed_inf a
  | Finite a, NegInf | NegInf, Finite a => signed_inf (- a)
  | PosInf, PosInf | NegInf, NegInf => PosInf
  | PosInf, NegInf | NegInf, PosInf => NegInf
  end.

(** numpy's division: a zero divisor, always [+0.0] here, gives an infinity
    of the sign of the dividend, or nan for [0 / 0]. *)
Definition np_divide (x y : float64) : float64 :=
  match x, y with
  | Finite a, Finite b => if Qeq_bool b 0 then signed_inf a else Finite (a / b)
  | NaN, _ | _, NaN => NaN
  | Finite _, (PosInf | NegInf) => Finite 0
  | (PosInf | NegInf), (PosInf | NegInf) => NaN
  | PosInf, Finite b => if Qltb b 0 then NegInf else PosInf
  | NegInf, Finite b => if Qltb b 0 then PosInf else NegInf
  end.

(** [x ** n] for a count [n]; [nan ** 0] and [inf ** 0] are 1. *)
Definition fpow (x : float64) (n : nat) : float64 :=
  match x with
  | Finite a => Finite (a ^ Z.of_nat n)
  | PosInf => match n with O => Finite 1 | S _ => PosInf end
  | NegInf => match n with
              | O => Finite 1
              | S _ => if Nat.even n then PosInf else NegInf
              end
  | NaN => match n with O => Finite 1 | S _ => NaN end
  end.

Definition fabs (x : float64) : float64 :=
  match x with
  | Finite a => Finite (Qabs a)
  | PosInf | NegInf => PosInf
  | NaN => NaN
  end.

(** Comparisons: every comparison with nan is false. *)
Definition fltb (x y : float64) : bool :=
  match x, y with
  | Finite a, Finite b => Qltb a b
  | NaN, _ | _, NaN => false
  | _, NegInf => false
  | NegInf, _ => true
  | PosInf, _ => false
  | Finite _, PosInf => true
  end.

Definition fleb (x y : float64) : bool :=
  match x, y with
  | Finite a, Finite b => Qle_bool a b
  | NaN, _ | _, NaN => false
  | NegInf, _ => true
  | _, PosInf => true
  | _, _ => false
  end.

Definition feqb (x y : float64) : bool :=
  match x, y with
  | Finite a, Finite b => Qeq_bool a b
  | PosInf, PosInf | NegInf, NegInf => true
  | _, _ => false
  end.

(** [sum] and [np.sum], from 0. *)
Definition fsum (l : list float64) : float64 := fold_left fadd l (Finite 0).

(** Python's [a / b] on finite floats: a zero divisor raises. *)
Definition py_divide (a b : Q) : res Q :=
  if Qeq_bool b 0 then Raise ZeroDivisionError else Ok (a / b).

(** Python's [x / y] on floats that need not be finite. *)
Definition py_truediv (x y : float64) : res float64 :=
  match y with
  | Finite b => if Qeq_bool b 0 then Raise ZeroDivisionError else Ok (np_divide x y)
  | _ => Ok (np_divide x y)
  end.

Definition qsum (l : list Q) : Q := fold_left Qplus l 0.

Definition inject_nat (n : nat) : Q := inject_Z (Z.of_nat n).

(** [enumerate(cashflows)] *)
Definition enumerate {A : Type} (l : list A) : list (nat * A) :=
  combine (seq 0 (length l)) l.

(** ** VAN (NPV) *)

(** [float(sum(cf / (1 + rate) ** i for i, cf in enumerate(cashflows)))]

    The division is the one of the operands' types.  [npv] is the function
    on Python floats, as [evaluate_project] and [benefit_cost_ratio] call
    it: finite operands give a finite result unless a divisor is zero, which
    raises.  [npv_np] is the same expression with a numpy float64 operand,
    the cashflows of [monte_carlo_npv] or the rates of [npv_profile]: the
    division never raises and the result need not be finite.  The powers
    are exact: one beyond the range of binary64 is outside the number
    model. *)
Definition npv (rate : Q) (cashflows : list Q) : res Q :=
  let* terms := rmap (fun '(i, cf) => py_divide cf ((1 + rate) ^ Z.of_nat i))
                 (enumerate cashflows) in
  Ok (qsum terms).

Definition npv_np (rate : Q) (cashflows : list Q) : float64 :=
  fsum (map (fun '(i, cf) => np_divide (Finite cf) (Finite ((1 + rate) ^ Z.of_nat i)))
          (enumerate cashflows)).

(** ** TIR (IRR): Newton, then a scan with bisection *)

(** [f(r) = float(np.sum(cf / ((1.0 + r) ** periods)))]; [r] is a Python
    float, which the Newton loop can turn into nan. *)
Definition f (cf : list Q) (r : float64) : float64 :=
  fsum (map (fun '(p, c) => np_divide (Finite c) (fpow (fadd (Finite 1) r) p))
          (enumerate cf)).

(** [fprime(r) = float(np.sum(-periods * cf / ((1.0 + r) ** (periods + 1))))] *)
Definition fprime (cf : list Q) (r : float64) : float64 :=
  fsum (map (fun '(p, c) =>
               np_divide (Finite (- inject_nat p * c))
                         (fpow (fadd (Finite 1) r) (p + 1)))
          (enumerate cf)).

(** The Newton loop [for _ in range(maxiter)]: [Some r] when the loop
    returns [r], [None] when it ends by [break] or by exhaustion.  Inside
    the [try], [abs(fr) < tol] and [r_new <= -0.999999] are false on nan,
    and an exception of [fr / fpr] ends the loop. *)
Fixpoint newton (cf : list Q) (tol : Q) (iters : nat) (r : float64)
  : option float64 :=
  match iters with
  | O => None
  | S iters' =>
      let fr := f cf r in
      if fltb (fabs fr) (Finite tol) then Some r
      else
        let fpr := fprime cf r in
        if fltb (fabs fpr) (Finite (1 # 1000000000000)) then None
        else
          match py_truediv fr fpr with
          | Raise _ => None
          | Ok q =>
              let r_new := fsub r q in
              if fleb r_new (Finite (- (999999 # 1000000))) then None
              else newton cf tol iters' r_new
          end
  end.

(** [np.linspace(start, stop, num)]: [num] evenly spaced points, the last
    one set to [stop]. *)
Definition linspace (start stop : Q) (num : nat) : list Q :=
  match num with
  | O => []
  | 1%nat => [start]
  | S div =>
      let step := (stop - start) / inject_nat div in
      map (fun i => start + inject_nat i * step) (seq 0 div) ++ [stop]
  end.

Definition lows : list Q :=
  linspace (- (9999 # 10000)) (- (1 # 10)) 200
  ++ linspace (- (5 # 100)) 5 2000.

(** Outcome of the scan loop over adjacent grid points. *)
Inductive scan_result : Type :=
| ZeroAt (x : Q)                   (* [return float(lows[i])] inside the loop *)
| Brackets (sc : list (Q * Q)).    (* the loop ended: [sign_changes] *)

(** [for i in range(len(vals) - 1)]: the head of both lists is index [i]. *)
Fixpoint scan (ls : list Q) (vals : list float64) (sign_changes : list (Q * Q))
  : scan_result :=
  match ls, vals with
  | a :: ((b :: _) as ls'), va :: ((vb :: _) as vals') =>
      if feqb va (Finite 0) then ZeroAt a
      else if fltb (fmul va vb) (Finite 0)
           then scan ls' vals' (sign_changes ++ [(a, b)])
           else scan ls' vals' sign_changes
  | _, _ => Brackets sign_changes
  end.

(** The bisection loop [for _ in range(100)] and the final midpoint; the
    ends of the bracket are grid points or midpoints, hence finite. *)
Fixpoint bisect (cf : list Q) (tol : Q) (iters : nat) (a b : Q) (fa fb : float64)
  : Q :=
  match iters with
  | O => (a + b) / 2
  | S iters' =>
      let m := (a + b) / 2 in
      let fm := f cf (Finite m) in
      if fltb (fabs fm) (Finite tol) then m
      else if fltb (fmul fa fm) (Finite 0)
           then bisect cf tol iters' a m fa fm
           else bisect cf tol iters' m b fm fb
  end.

(** The fallback of [irr]: scan, then bisect the first bracket. *)
Definition fallback (cf : list Q) (tol : Q) : option Q :=
  let vals := map (fun x => f cf (Finite x)) lows in
  match scan lows vals [] with
  | ZeroAt x => Some x
  | Brackets [] => None
  | Brackets ((a, b) :: _) =>
      Some (bisect cf tol 100 a b (f cf (Finite a)) (f cf (Finite b)))
  end.

(** [irr] itself: nothing it calls raises outside the [try] of the loop. *)
Definition irr (cashflows : list Q) (guess tol : Q) (maxiter : Z)
  : option float64 :=
  match newton cashflows tol (Z.to_nat maxiter) (Finite guess) with
  | Some r => Some r
  | None => option_map Finite (fallback cashflows tol)
  end.

Definition default_guess : Q := 1 # 10.
Definition default_tol : Q := 1 # 100000000.
Definition default_maxiter : Z := 200.

Definition irr_default (cashflows : list Q) : option float64 :=
  irr cashflows default_guess default_tol default_maxiter.

(** ** B/C ratio *)

Definition benefit_cost_ratio (cashflows : list Q) (rate : Q) : res (option Q) :=
  let benefits := map (fun cf => if Qltb 0 cf then cf else 0) cashflows in
  let costs := map (fun cf => if Qltb cf 0 then - cf else 0) cashflows in
  let* pv_b := npv rate benefits in
  let* pv_c := npv rate costs in
  if Qltb (Qabs pv_c) (1 # 1000000000000) then Ok None
  else Ok (Some (pv_b / pv_c)).


(** ** Perfil de VAN *)

(** [[(float(t), npv(t, cashflows)) for t in tmar_grid]]: the rates of the
    grid are numpy float64 values. *)
Definition npv_profile (cashflows : list Q) (tmar_grid : list Q)
  : list (Q * float64) :=
  map (fun t => (t, npv_np t cashflows)) tmar_grid.

(** ** Sorting

    A stable insertion sort: [x] moves right past the elements [y] with
    [stays_before y x].  Any stable sort by the same key returns the same
    list, so it stands for numpy's sort and for Python's [list.sort]. *)

Section StableSort.
Context {A : Type} (stays_before : A -> A -> bool).

Fixpoint insert_sorted (x : A) (l : list A) : list A :=
  match l with
  | [] => [x]
  | y :: l' => if stays_before y x then y :: insert_sorted x l' else x :: y :: l'
  end.

Fixpoint stable_sort (l : list A) : list A :=
  match l with
  | [] => []
  | x :: l' => insert_sorted x (stable_sort l')
  end.
End StableSort.

(** ** Statistics of a sample *)

(** The order of [np.sort]: ascending, nan last. *)
Definition sorts_before (y x : float64) : bool :=
  match y, x with
  | NaN, _ => false
  | _, NaN => true
  | _, _ => fltb y x
  end.

Definition np_sort (a : list float64) : list float64 := stable_sort sorts_before a.

(** [a.mean()]: the sum over the count, nan on an empty array. *)
Definition np_mean (a : list float64) : float64 :=
  np_divide (fsum a) (Finite (inject_nat (length a))).

Definition is_nan (x : float64) : bool :=
  match x with NaN => true | _ => false end.

(** numpy's [_lerp(a, b, t)]: [a + (b - a) * t], and [b - (b - a) * (1 - t)]
    for [t >= 0.5]. *)
Definition lerp (a b : float64) (t : Q) : float64 :=
  let diff_b_a := fsub b a in
  if Qle_bool (1 # 2) t
  then fsub b (fmul diff_b_a (Finite (1 - t)))
  else fadd a (fmul diff_b_a (Finite t)).

(** [np.percentile(a, q)] with the default linear interpolation between
    the two order statistics around the virtual index [(n - 1) * q / 100];
    nan as soon as the sample holds a nan; numpy raises on an empty
    array. *)
Definition percentile (a : list float64) (q : Q) : res float64 :=
  match a with
  | [] => Raise IndexError
  | _ =>
      let sorted := np_sort a in
      let n := length a in
      let virtual_index := inject_nat (n - 1) * (q / 100) in
      let previous := Z.to_nat (Qfloor virtual_index) in
      let next := Nat.min (previous + 1) (n - 1) in
      let gamma := virtual_index - inject_nat previous in
      let lo := nth previous sorted NaN in
      let hi := nth next sorted NaN in
      if existsb is_nan a then Ok NaN else Ok (lerp lo hi gamma)
  end.

(** ** Monte Carlo NPV *)

(** The pseudo-random source the simulator draws from: numpy's global
    generator and the generator of Python's [random] module. *)
Class RandomSource : Type := {
  rng : Type;
  pyrng : Type;
  np_seed : Z -> rng;
  py_seed : Z -> pyrng;
  (** [normal g loc scale size]: [size] draws and the next state *)
  normal : rng -> Q -> Q -> nat -> list Q * rng;
  normal_length : forall g loc scale size,
    length (fst (normal g loc scale size)) = size
}.

Record summary : Type := {
  s_n_sim : Z;
  s_mean : float64;
  s_std : float64;
  s_p5 : float64;
  s_p25 : float64;
  s_p50 : float64;
  s_p75 : float64;
  s_p95 : float64;
  s_samples : list float64
}.

Record report : Type := {
  r_cashflows : list Q;
  r_tmar : Q;
  r_van : Q;
  r_tir : option float64;
  r_b_c : option Q;
  r_npv_profile : list (Q * float64);
  r_montecarlo : option summary
}.

Section Simulation.
Context `{RS : RandomSource}.
(** [np.sqrt] on a finite float64 that is not negative, left abstract by
    the exact number model. *)
Variable np_sqrt : Q -> Q.

Definition fsqrt (x : float64) : float64 :=
  match x with
  | Finite a => if Qltb a 0 then NaN else Finite (np_sqrt a)
  | PosInf => PosInf
  | NegInf | NaN => NaN
  end.

(** The process-wide generator states. *)
Record world : Type := { np_state : rng; py_state : pyrng }.

(** Computations that may raise and that thread the generator states. *)
Definition M (A : Type) : Type := world -> res A * world.

Definition ret {A : Type} (a : A) : M A := fun w => (Ok a, w).

Definition bind {A B : Type} (m : M A) (k : A -> M B) : M B :=
  fun w => match m w with
           | (Ok a, w') => k a w'
           | (Raise e, w') => (Raise e, w')
           end.

Definition lift {A : Type} (r : res A) : M A := fun w => (r, w).

Notation "'do' x '<-' m ';' k" := (bind m (fun x => k))
  (at level 10, x name, m at level 100, k at level 200).

(** [np.random.seed(seed)]: the seed must fit in 32 unsigned bits. *)
Definition np_random_seed (seed : Z) : M unit :=
  fun w =>
    if ((0 <=? seed) && (seed <? 2 ^ 32))%Z
    then (Ok tt, {| np_state := np_seed seed; py_state := py_state w |})
    else (Raise ValueError, w).

(** [random.seed(seed)] *)
Definition random_seed (seed : Z) : M unit :=
  fun w => (Ok tt, {| np_state := np_state w; py_state := py_seed seed |}).

(** [np.random.normal(loc, scale, size=size)]: a negative scale raises. *)
Definition np_random_normal (loc scale : Q) (size : nat) : M (list Q) :=
  fun w =>
    if Qltb scale 0 then (Raise ValueError, w)
    else let (draws, g) := normal (np_state w) loc scale size in
         (Ok draws, {| np_state := g; py_state := py_state w |}).

Definition ones_like (base : list Q) : list Q := map (fun _ => 1) base.

(** [shocks = np.ones_like(base)], then [shocks[1:] = np.random.normal(...)]
    when there is a period after t=0. *)
Definition draw_shocks (base : list Q) (sigma : Q) : M (list Q) :=
  if (1 <? length base)%nat
  then do draws <- np_random_normal 1 sigma (length base - 1);
       ret (firstn 1 (ones_like base) ++ draws)
  else ret (ones_like base).

(** One pass of the body of [for _ in range(n_sim)]. *)
Definition trial (base : list Q) (rate sigma : Q) : M float64 :=
  do shocks <- draw_shocks base sigma;
  let scenario := zip_with Qmult base shocks in
  ret (npv_np rate scenario).

Fixpoint trials (base : list Q) (rate sigma : Q) (n : nat) (sims : list float64)
  : M (list float64) :=
  match n with
  | O => ret sims
  | S n' => do v <- trial base rate sigma;
            trials base rate sigma n' (sims ++ [v])
  end.

(** [a.std()]: the root of the mean squared deviation. *)
Definition np_std (a : list float64) : float64 :=
  let m := np_mean a in
  fsqrt (np_mean (map (fun x => fmul (fsub x m) (fsub x m)) a)).

(** The statistics of the dict returned: the mean and the deviation of an
    empty sample are nan, its percentile raises. *)
Definition summarize (n_sim : Z) (sims : list float64) : res summary :=
  let mean := np_mean sims in
  let std := np_std sims in
  let* p5 := percentile sims 5 in
  let* p25 := percentile sims 25 in
  let* p50 := percentile sims 50 in
  let* p75 := percentile sims 75 in
  let* p95 := percentile sims 95 in
  Ok {| s_n_sim := n_sim; s_mean := mean; s_std := std;
        s_p5 := p5; s_p25 := p25; s_p50 := p50; s_p75 := p75; s_p95 := p95;
        s_samples := sims |}.

Definition monte_carlo_npv (cashflows : list Q) (rate : Q) (n_sim : Z)
    (sigma : Q) (seed : option Z) : M summary :=
  do _u <- (match seed with
            | Some s => do _v <- np_random_seed s; random_seed s
            | None => ret tt
            end);
  do sims <- trials cashflows rate sigma (Z.to_nat n_sim) [];
  lift (summarize n_sim sims).

(** ** API de evaluación *)

Definition evaluate_project (cashflows : list Q) (tmar : Q) (montecarlo : bool)
    (mc_nsim : Z) (mc_sigma : Q) (mc_seed : option Z) : M report :=
  do van_val <- lift (npv tmar cashflows);
  let tir_val := irr_default cashflows in
  do bc_val <- lift (benefit_cost_ratio cashflows tmar);
  let low := tmar - (2 # 10) in
  let tgrid := linspace (if Qltb 0 low then low else 0) (tmar + (2 # 10)) 41 in
  let profile := npv_profile cashflows tgrid in
  do mc <- (if montecarlo
            then do s <- monte_carlo_npv cashflows tmar mc_nsim mc_sigma mc_seed;
                 ret (Some s)
            else ret None);
  ret {| r_cashflows := cashflows; r_tmar := tmar; r_van := van_val;
         r_tir := tir_val; r_b_c := bc_val; r_npv_profile := profile;
         r_montecarlo := mc |}.
End Simulation.

Arguments world {RS}.
Arguments M {RS} A.

(** ** Comparación multicriterio *)

(** A metric stored in a project's [metrics] dict: a number or [None]. *)
Inductive pyval : Type := PyNone | PyNum (q : Q).

Record project : Type := {
  p_name : option string;          (* the key ['name'], when present *)
  p_metrics : gmap string pyval    (* the dict under ['metrics'] *)
}.

Record entry : Type := {
  e_name : string;
  e_van : Q;
  e_tir : Q;
  e_b_c : Q;
  e_score : Q
}.

(** [metrics.get(key, 0) or 0] *)
Definition metric_or_zero (metrics : gmap string pyval) (key : string) : Q :=
  match metrics !! key with
  | Some (PyNum q) => if Qeq_bool q 0 then 0 else q
  | Some PyNone => 0
  | None => 0
  end.

(** [weights.get(key, 0)] *)
Definition weight (weights : gmap string Q) (key : string) : Q :=
  match weights !! key with
  | Some w => w
  | None => 0
  end.

Definition default_weights : gmap string Q :=
  <["van" := 5 # 10]> (<["tir" := 3 # 10]> (<["b_c" := 2 # 10]> ∅)).

(** [arr.max()] and [arr.min()]: numpy raises on an empty array. *)
Definition np_max (arr : list Q) : res Q :=
  match arr with
  | [] => Raise ValueError
  | x :: xs => Ok (fold_left (fun m y => if Qltb m y then y else m) xs x)
  end.

Definition np_min (arr : list Q) : res Q :=
  match arr with
  | [] => Raise ValueError
  | x :: xs => Ok (fold_left (fun m y => if Qltb y m then y else m) xs x)
  end.

Definition safe_normalize (arr : list Q) : res (list Q) :=
  let* mx := np_max arr in
  let* mn := np_min arr in
  if Qeq_bool mx mn then Ok (map (fun _ => 0) arr)
  else Ok (map (fun x => (x - mn) / (mx - mn)) arr).

(** The entries in input order, before [scores.sort]. *)
Definition score_entries (projects : list project) (weights : gmap string Q)
    (vans tirs bcs nv nt nb : list Q) : list entry :=
  map (fun '(i, p) =>
         let score := weight weights "van" * nth i nv 0
                      + weight weights "tir" * nth i nt 0
                      + weight weights "b_c" * nth i nb 0 in
         {| e_name := match p_name p with
                      | Some s => s
                      | None => "proj_" +:+ pretty i
                      end;
            e_van := nth i vans 0;
            e_tir := nth i tirs 0;
            e_b_c := nth i bcs 0;
            e_score := score |})
      (enumerate projects).

Definition compare_projects (projects : list project)
    (weights : option (gmap string Q)) : res (list entry) :=
  let weights := match weights with Some w => w | None => default_weights end in
  let vans := map (fun p => metric_or_zero (p_metrics p) "van") projects in
  let tirs := map (fun p => metric_or_zero (p_metrics p) "tir") projects in
  let bcs := map (fun p => metric_or_zero (p_metrics p) "b_c") projects in
  let* nv := safe_normalize vans in
  let* nt := safe_normalize tirs in
  let* nb := safe_normalize bcs in
  let scores := score_entries projects weights vans tirs bcs nv nt nb in
  (* [scores.sort(key=score, reverse=True)]: descending and stable *)
  Ok (stable_sort (fun y x => Qltb (e_score x) (e_score y)) scores).

(** ** Gradientes *)

(** [[float(f0 + g * i) for i in range(n)]] *)
Definition gradient_arithmetic (f0 g : Q) (n : Z) : list Q :=
  map (fun i => f0 + g * inject_nat i) (seq 0 (Z.to_nat n)).

(** [[float(f0 * ((1.0 + g) ** i)) for i in range(n)]]: the exact values of
    the terms; a power beyond the range of binary64, on which [**] raises
    [OverflowError], is outside the number model. *)
Definition gradient_geometric (f0 g : Q) (n : Z) : list Q :=
  map (fun i => f0 * (1 + g) ^ Z.of_nat i) (seq 0 (Z.to_nat n)).

(** ** The callers in [project_evaluator_ui.py] *)

(** The flow types of the project form, with the numbers entered for each;
    for a geometric gradient the growth is the percentage entered divided
    by 100, for a manual flow [entered i] is the input of year [i]. *)
Inductive flow_type : Type :=
| Constante (flow : Q)
| GradienteAritmetico (f0 g : Q)
| GradienteGeometrico (f0 g_pct : Q)
| Manual (entered : nat -> Q).

(** The cashflows the form builds from the outlay [c0] and the horizon [n]. *)
Definition form_cashflows (c0 : Q) (n : Z) (ft : flow_type) : list Q :=
  match ft with
  | Constante flow => [c0] ++ repeat flow (Z.to_nat n)
  | GradienteAritmetico f0 g => [c0] ++ gradient_arithmetic f0 g n
  | GradienteGeometrico f0 g_pct => [c0] ++ gradient_geometric f0 g_pct n
  | Manual entered => c0 :: map entered (seq 1 (Z.to_nat n))
  end.

(** ** A concrete random source

    A linear congruential generator whose draws are [loc + scale * u] with
    [u] in {-3/2, -1, ..., 3/2}; it runs the simulator on concrete inputs. *)

Definition lcg_next (g : Z) : Z := ((g * 1103515245 + 12345) mod 2 ^ 31)%Z.

Fixpoint lcg_normal (g : Z) (loc scale : Q) (size : nat) : list Q * Z :=
  match size with
  | O => ([], g)
  | S size' =>
      let g' := lcg_next g in
      let u := inject_Z (g' mod 7 - 3) / 2 in
      let (draws, g'') := lcg_normal g' loc scale size' in
      (loc + scale * u :: draws, g'')
  end.

Definition lcg_source : RandomSource.
Proof.
  refine {| rng := Z; pyrng := Z;
            np_seed := fun s => s; py_seed := fun s => s;
            normal := lcg_normal |}.
  intros g loc scale size. revert g.
  induction size as [|n IH]; intros g; simpl; [reflexivity|].
  specialize (IH (lcg_next g)).
  destruct (lcg_normal (lcg_next g) loc scale n) as [draws g'']; simpl in *.
  now rewrite IH.
Defined.

(** A rational stand-in for the square root: the integer root of the
    value scaled by 10^12. *)
Definition approx_sqrt (x : Q) : Q :=
  inject_Z (Z.sqrt (Qfloor (x * 1000000000000))) / 1000000.

Definition world0 : @world lcg_source :=
  @Build_world lcg_source 0%Z 0%Z.

(** ** Notions used to state the properties *)

(** The discounted sum [cf[0] / x^i + cf[1] / x^(i+1) + ...]. *)
Fixpoint disc (x : Q) (i : nat) (cf : list Q) : Q :=
  match cf with
  | [] => 0
  | c :: l => c / x ^ Z.of_nat i + disc x (S i) l
  end.

(** Cashflows of one sign, the first of them at least [tol] in magnitude. *)
Definition uniform_sign (tol : Q) (cf : list Q) : Prop :=
  match cf with
  | [] => False
  | c0 :: _ =>
      (List.Forall (fun c => 0 < c) cf /\ tol <= c0)
      \/ (List.Forall (fun c => c < 0) cf /\ c0 <= - tol)
  end.

(** [adjacent P l]: [P] holds of every pair of neighbours of [l]. *)
Fixpoint adjacent {A : Type} (P : A -> A -> Prop) (l : list A) : Prop :=
  match l with
  | a :: ((b :: _) as l') => P a b /\ adjacent P l'
  | _ => True
  end.

(** The hypotheses the scan needs to report absence: no sampled value is
    zero and no pair of neighbours has values of opposite sign. *)
Definition no_root_sampled (cf : list Q) : Prop :=
  exists vals, map (fun x => f cf (Finite x)) lows = map Finite vals
               /\ List.Forall (fun v => ~ v == 0) vals
               /\ adjacent (fun va vb => ~ va * vb < 0) vals.

(** A float that is a number, and a float that is the number [q]. *)
Definition is_finite (x : float64) : Prop :=
  match x with Finite _ => True | _ => False end.

Definition has_value (x : float64) (q : Q) : Prop :=
  match x with Finite v => v == q | _ => False end.




(** [np.random.seed] accepts exactly the seeds of 32 unsigned bits. *)
Definition valid_seed (seed : option Z) : Prop :=
  match seed with
  | Some s => (0 <= s < 2 ^ 32)%Z
  | None => True
  end.

(** The shocks of [n] successive trials, [size] draws each, from the state
    [g] of numpy's generator. *)
Fixpoint successive_draws `{RS : RandomSource} (g : rng) (sigma : Q) (size n : nat)
  : list (list Q) :=
  match n with
  | O => []
  | S n' =>
      let (draws, g') := normal g 1 sigma size in
      draws :: successive_draws g' sigma size n'
  end.

(** The state of numpy's generator when the trials start: the seeded one
    when a seed is given, the one at the call otherwise. *)
Definition initial_np_state `{RS : RandomSource} (seed : option Z) (w : world)
  : rng :=
  match seed with
  | Some s0 => np_seed s0
  | None => np_state w
  end.

(** The value of the scenario that keeps the outlay [c0] and multiplies each
    later cashflow by its shock. *)
Definition scenario_value (rate c0 : Q) (later shocks : list Q) : float64 :=
  npv_np rate (c0 * 1 :: zip_with Qmult later shocks).

(** The metric of a project as the ranking reads it: its number, and 0 when
    the key is absent or holds [None]. *)
Definition metric (p : project) (key : string) : Q :=
  match p_metrics p !! key with
  | Some (PyNum q) => q
  | _ => 0
  end.

Definition is_min (m : Q) (l : list Q) : Prop :=
  List.In m l /\ List.Forall (fun x => m <= x) l.

Definition is_max (m : Q) (l : list Q) : Prop :=
  List.In m l /\ List.Forall (fun x => x <= m) l.

(** [n] is the min-max normalisation of [x] within [arr]: a number of
    [0, 1], namely 0 when all of [arr] is one value. *)
Definition minmax_normalized (arr : list Q) (x n : Q) : Prop :=
  exists mn mx,
    is_min mn arr /\ is_max mx arr /\ 0 <= n <= 1
    /\ (mx == mn -> n == 0)
    /\ (~ mx == mn -> n == (x - mn) / (mx - mn)).

Definition descending (l : list entry) : Prop :=
  StronglySorted (fun a b => e_score b <= e_score a) l.

Definition weight_triple (wv wt wb : Q) : gmap string Q :=
  <["van" := wv]> (<["tir" := wt]> (<["b_c" := wb]> ∅)).

(** The weights [compare_projects] works with: the dict passed, or the
    default one. *)
Definition effective_weights (weights : option (gmap string Q)) : gmap string Q :=
  match weights with Some w => w | None => default_weights end.

(** The name of the entry built for the project [p] found at index [i]. *)
Definition entry_name (i : nat) (p : project) : string :=
  match p_name p with
  | Some s => s
  | None => "proj_" +:+ pretty i
  end.

(** Two projects to rank: the second has no name, no ratio and an undefined
    rate of return. *)
Definition project_a : project :=
  {| p_name := Some "A";
     p_metrics := <["van" := PyNum 1000]>
                    (<["tir" := PyNum (2 # 10)]> (<["b_c" := PyNum (15 # 10)]> ∅)) |}.

Definition project_b : project :=
  {| p_name := None;
     p_metrics := <["van" := PyNum 500]> (<["tir" := PyNone]> ∅) |}.

(** * Properties *)

(** ** Comparisons *)

Lemma Qltb_lt (a b : Q) : Qltb a b = true <-> a < b.
Proof.
  unfold Qltb. rewrite negb_true_iff.
  destruct (Qle_bool b a) eqn:E.
  - apply Qle_bool_iff in E. split; [discriminate | lra].
  - split; [intros _ | reflexivity].
    apply Qnot_le_lt. intros H. apply Qle_bool_iff in H. congruence.
Qed.

Lemma Qltb_ge (a b : Q) : Qltb a b = false <-> b <= a.
Proof.
  unfold Qltb. rewrite negb_false_iff. apply Qle_bool_iff.
Qed.

Lemma Qle_bool_gt (a b : Q) : Qle_bool a b = false <-> b < a.
Proof.
  rewrite <- Qltb_lt. unfold Qltb. now rewrite negb_true_iff.
Qed.

Lemma Qeq_bool_ne (a b : Q) : Qeq_bool a b = false <-> ~ a == b.
Proof.
  split.
  - intros E H. apply Qeq_bool_iff in H. congruence.
  - intros H. destruct (Qeq_bool a b) eqn:E; [|reflexivity].
    apply Qeq_bool_iff in E. contradiction.
Qed.

(** ** Floats *)

Lemma fold_fadd_finite (ts : list Q) (a : Q) :
  fold_left fadd (map Finite ts) (Finite a) = Finite (fold_left Qplus ts a).
Proof.
  revert a. induction ts as [|t ts IH]; intros a; cbn [map fold_left fadd]; auto.
Qed.

Lemma fsum_finite (ts : list Q) : fsum (map Finite ts) = Finite (qsum ts).
Proof. apply fold_fadd_finite. Qed.

(** A float whose magnitude is below a number is a number. *)
Lemma fabs_below (x : float64) (t : Q) :
  fltb (fabs x) (Finite t) = true -> exists v, x = Finite v /\ Qabs v < t.
Proof.
  destruct x as [v| | |]; cbn [fabs fltb]; try discriminate.
  intros H. apply Qltb_lt in H. eauto.
Qed.

(** ** Sums and discounting *)

Lemma fold_plus_acc (l : list Q) (a : Q) :
  fold_left Qplus l a == a + qsum l.
Proof.
  unfold qsum. revert a. induction l as [|x l IH]; intros a; simpl.
  - lra.
  - rewrite (IH (a + x)), (IH (0 + x)). lra.
Qed.

Lemma qsum_cons (x : Q) (l : list Q) : qsum (x :: l) == x + qsum l.
Proof.
  unfold qsum at 1. simpl. rewrite fold_plus_acc. lra.
Qed.

Lemma rmap_discount (x : Q) (Hx : ~ x == 0) (l : list Q) (i : nat) :
  exists terms,
    rmap (fun '(p, c) => py_divide c (x ^ Z.of_nat p)) (combine (seq i (length l)) l)
    = Ok terms
    /\ qsum terms == disc x i l.
Proof.
  revert i. induction l as [|c l IH]; intros i; simpl.
  - exists []. split; [reflexivity | reflexivity].
  - destruct (IH (S i)) as (terms & Hr & Hs). rewrite Hr.
    unfold py_divide. pose proof (Qpower_not_0 x (Z.of_nat i) Hx) as Hp.
    apply Qeq_bool_ne in Hp. rewrite Hp. simpl.
    eexists. split; [reflexivity|]. rewrite qsum_cons, Hs. reflexivity.
Qed.

(** With a numpy operand the terms of a divisor other than zero are the
    same numbers. *)
Lemma map_discount (x : Q) (Hx : ~ x == 0) (l : list Q) (i : nat) :
  exists terms,
    map (fun '(p, c) => np_divide (Finite c) (Finite (x ^ Z.of_nat p)))
      (combine (seq i (length l)) l)
    = map Finite terms
    /\ qsum terms == disc x i l.
Proof.
  revert i. induction l as [|c l IH]; intros i; cbn [length seq combine map].
  - exists []. split; reflexivity.
  - destruct (IH (S i)) as (terms & Hr & Hs). rewrite Hr.
    unfold np_divide. pose proof (Qpower_not_0 x (Z.of_nat i) Hx) as Hp.
    apply Qeq_bool_ne in Hp. rewrite Hp.
    exists (c / x ^ Z.of_nat i :: terms). split; [reflexivity|].
    rewrite qsum_cons, Hs. reflexivity.
Qed.

Lemma npv_np_value (rate : Q) (cf : list Q) (Hr : ~ 1 + rate == 0) :
  exists v, npv_np rate cf = Finite v /\ v == disc (1 + rate) 0 cf.
Proof.
  unfold npv_np, enumerate.
  destruct (map_discount (1 + rate) Hr cf 0) as (terms & -> & Hs).
  rewrite fsum_finite. eauto.
Qed.

(** At a finite rate [f] is [npv] with a numpy operand. *)
Lemma f_npv_np (cf : list Q) (r : Q) : f cf (Finite r) = npv_np r cf.
Proof. reflexivity. Qed.

Lemma f_value (cf : list Q) (r : Q) (Hr : ~ 1 + r == 0) :
  exists v, f cf (Finite r) = Finite v /\ v == disc (1 + r) 0 cf.
Proof. rewrite f_npv_np. now apply npv_np_value. Qed.

Lemma npv_value (rate : Q) (cf : list Q) (Hr : ~ 1 + rate == 0) :
  exists v, npv rate cf = Ok v /\ v == disc (1 + rate) 0 cf.
Proof.
  unfold npv, enumerate.
  destruct (rmap_discount (1 + rate) Hr cf 0) as (terms & -> & Hs).
  simpl. eauto.
Qed.

Lemma fprime_defined (cf : list Q) (r : Q) (Hr : ~ 1 + r == 0) :
  exists v, fprime cf (Finite r) = Finite v.
Proof.
  unfold fprime, enumerate.
  assert (H : forall l i, exists terms,
             map (fun '(p, c) =>
                    np_divide (Finite (- inject_nat p * c))
                              (fpow (fadd (Finite 1) (Finite r)) (p + 1)))
                 (combine (seq i (length l)) l) = map Finite terms).
  { induction l as [|c l IH]; intros i; cbn [length seq combine map].
    - exists []. reflexivity.
    - destruct (IH (S i)) as (terms & ->).
      cbn [fadd fpow]. unfold np_divide.
      pose proof (Qpower_not_0 (1 + r) (Z.of_nat (i + 1)) Hr) as Hp.
      apply Qeq_bool_ne in Hp. rewrite Hp.
      exists (- inject_nat i * c / (1 + r) ^ Z.of_nat (i + 1) :: terms). reflexivity. }
  destruct (H cf 0%nat) as (terms & ->). rewrite fsum_finite. eauto.
Qed.

(** A sequence without a period after t=0 is discounted by [x ** 0] alone:
    no division by zero can occur, whatever the rate. *)
Lemma npv_single (rate c : Q) :
  exists v, npv rate [c] = Ok v /\ v == c.
Proof.
  unfold npv, enumerate, py_divide. simpl. eexists. split; [reflexivity|].
  unfold qsum. simpl. field.
Qed.

Lemma npv_np_single (rate c : Q) : npv_np rate [c] = Finite (0 + c / 1).
Proof. reflexivity. Qed.

Lemma f_single (c : Q) (r : float64) : f [c] r = Finite (0 + c / 1).
Proof. destruct r; reflexivity. Qed.

(** ** Sign of the discounted sum *)

Lemma disc_nonneg (x : Q) (Hx : 0 < x) (l : list Q) (i : nat) :
  List.Forall (fun c => 0 < c) l -> 0 <= disc x i l.
Proof.
  intros H. revert i. induction H as [|c l Hc _ IH]; intros i; simpl.
  - lra.
  - specialize (IH (S i)).
    assert (0 < c / x ^ Z.of_nat i).
    { unfold Qdiv. apply Qmult_lt_0_compat; [exact Hc|].
      apply Qinv_lt_0_compat, Qpower_0_lt, Hx. }
    lra.
Qed.

Lemma disc_nonpos (x : Q) (Hx : 0 < x) (l : list Q) (i : nat) :
  List.Forall (fun c => c < 0) l -> disc x i l <= 0.
Proof.
  intros H. revert i. induction H as [|c l Hc _ IH]; intros i; simpl.
  - lra.
  - specialize (IH (S i)).
    assert (0 < (- c) / x ^ Z.of_nat i).
    { unfold Qdiv. apply Qmult_lt_0_compat; [lra|].
      apply Qinv_lt_0_compat, Qpower_0_lt, Hx. }
    assert ((- c) / x ^ Z.of_nat i == - (c / x ^ Z.of_nat i)) by (unfold Qdiv; ring).
    lra.
Qed.

Lemma disc_head (x c : Q) (l : list Q) : disc x 0 (c :: l) == c + disc x 1 l.
Proof. simpl. change (x ^ 0) with 1. field. Qed.

Lemma uniform_sign_far (tol : Q) (cf : list Q) (r : Q) :
  uniform_sign tol cf -> 0 < 1 + r ->
  exists v, f cf (Finite r) = Finite v /\ tol <= Qabs v /\ ~ v == 0
            /\ (List.Forall (fun c => 0 < c) cf -> 0 < v)
            /\ (List.Forall (fun c => c < 0) cf -> v < 0).
Proof.
  intros Hu Hr. destruct cf as [|c0 rest]; [contradiction|].
  destruct (f_value (c0 :: rest) r) as (v & Hf & Hv); [lra|].
  exists v. split; [exact Hf|]. rewrite disc_head in Hv.
  destruct Hu as [[Hall Ht]|[Hall Ht]]; pose proof Hall as Hall';
    inversion Hall as [|? ? Hc0 Hrest]; subst.
  - pose proof (disc_nonneg (1 + r) Hr rest 1 Hrest).
    pose proof (Qle_Qabs v).
    repeat split; try lra.
    intros Hneg. inversion Hneg; subst. lra.
  - pose proof (disc_nonpos (1 + r) Hr rest 1 Hrest).
    pose proof (Qle_Qabs (- v)). rewrite Qabs_opp in H0.
    repeat split; try lra.
    intros Hpos. inversion Hpos; subst. lra.
Qed.

(** ** The Newton phase *)

(** One pass of the loop at a rate where the value and the slope are
    numbers. *)
Lemma newton_step (cf : list Q) (tol : Q) (n : nat) (r fr fpr : Q) :
  f cf (Finite r) = Finite fr -> fprime cf (Finite r) = Finite fpr ->
  newton cf tol (S n) (Finite r)
  = if Qltb (Qabs fr) tol then Some (Finite r)
    else if Qltb (Qabs fpr) (1 # 1000000000000) then None
         else if Qle_bool (r - fr / fpr) (- (999999 # 1000000)) then None
              else newton cf tol n (Finite (r - fr / fpr)).
Proof.
  intros Hf Hp. cbn [newton]. rewrite Hf, Hp. cbn [fabs fltb].
  destruct (Qltb (Qabs fr) tol); [reflexivity|].
  destruct (Qltb (Qabs fpr) (1 # 1000000000000)) eqn:E; [reflexivity|].
  assert (Hnz : Qeq_bool fpr 0 = false).
  { apply Qeq_bool_ne. intros Hz. apply Qltb_ge in E.
    rewrite Hz in E. change (Qabs 0) with 0 in E.
    revert E. apply Qlt_not_le. reflexivity. }
  unfold py_truediv, np_divide. rewrite Hnz. cbn [fsub fleb]. reflexivity.
Qed.

(** Every rate the Newton loop returns is the guess or an accepted
    iterate, hence a number above -0.999999 when the guess is. *)
Lemma newton_returns_above (cf : list Q) (tol : Q) (iters : nat) (r : Q)
    (x : float64) :
  - (999999 # 1000000) < r ->
  newton cf tol iters (Finite r) = Some x ->
  exists r', x = Finite r' /\ - (999999 # 1000000) < r'.
Proof.
  revert r. induction iters as [|n IH]; intros r Hr H; [discriminate|].
  destruct (f_value cf r) as (fr & Hf & _); [lra|].
  destruct (fprime_defined cf r) as (fpr & Hp); [lra|].
  rewrite (newton_step cf tol n r fr fpr Hf Hp) in H.
  destruct (Qltb (Qabs fr) tol).
  - injection H as <-. eauto.
  - destruct (Qltb (Qabs fpr) (1 # 1000000000000)); [discriminate|].
    destruct (Qle_bool (r - fr / fpr) (- (999999 # 1000000))) eqn:E; [discriminate|].
    apply Qle_bool_gt in E. exact (IH _ E H).
Qed.

(** On cashflows of one sign the value never comes within [tol] of zero,
    so the Newton loop ends without returning. *)
Lemma newton_uniform_sign (cf : list Q) (tol : Q) (iters : nat) (r : Q) :
  uniform_sign tol cf -> 0 < 1 + r ->
  newton cf tol iters (Finite r) = None.
Proof.
  intros Hu. revert r. induction iters as [|n IH]; intros r Hr; [reflexivity|].
  destruct (uniform_sign_far tol cf r Hu Hr) as (v & Hf & Habs & _).
  destruct (fprime_defined cf r) as (fpr & Hp); [lra|].
  rewrite (newton_step cf tol n r v fpr Hf Hp).
  apply Qltb_ge in Habs. rewrite Habs.
  destruct (Qltb (Qabs fpr) (1 # 1000000000000)); [reflexivity|].
  destruct (Qle_bool (r - v / fpr) (- (999999 # 1000000))) eqn:E; [reflexivity|].
  apply Qle_bool_gt in E. apply IH. lra.
Qed.

(** ** The scan grid *)

Lemma lows_length : length lows = 2200%nat.
Proof. vm_compute. reflexivity. Qed.

Lemma lows_range :
  List.Forall (fun x => - (9999 # 10000) <= x /\ x <= 5) lows.
Proof.
  apply List.Forall_forall. intros x Hx.
  assert (H : List.forallb
                (fun x => Qle_bool (- (9999 # 10000)) x && Qle_bool x 5) lows = true)
    by (vm_compute; reflexivity).
  rewrite List.forallb_forall in H. specialize (H x Hx).
  apply andb_true_iff in H as [H1 H2].
  split; now apply Qle_bool_iff.
Qed.

Lemma scan_step (a b : Q) (va vb : float64) (ls : list Q) (vals : list float64)
    (sc : list (Q * Q)) :
  scan (a :: b :: ls) (va :: vb :: vals) sc
  = if feqb va (Finite 0) then ZeroAt a
    else if fltb (fmul va vb) (Finite 0)
         then scan (b :: ls) (vb :: vals) (sc ++ [(a, b)])
         else scan (b :: ls) (vb :: vals) sc.
Proof. reflexivity. Qed.

(** The same pass on values that are numbers. *)
Lemma scan_step_finite (a b va vb : Q) (ls vals : list Q) (sc : list (Q * Q)) :
  scan (a :: b :: ls) (map Finite (va :: vb :: vals)) sc
  = if Qeq_bool va 0 then ZeroAt a
    else if Qltb (va * vb) 0
         then scan (b :: ls) (map Finite (vb :: vals)) (sc ++ [(a, b)])
         else scan (b :: ls) (map Finite (vb :: vals)) sc.
Proof. reflexivity. Qed.

Lemma scan_no_root (ls vals : list Q) (sc : list (Q * Q)) :
  List.Forall (fun v => ~ v == 0) vals ->
  adjacent (fun va vb => ~ va * vb < 0) vals ->
  scan ls (map Finite vals) sc = Brackets sc.
Proof.
  revert vals. induction ls as [|a ls IH]; intros vals Hnz Hadj; [reflexivity|].
  destruct ls as [|b ls]; [reflexivity|].
  destruct vals as [|va vals]; [reflexivity|].
  destruct vals as [|vb vals]; [reflexivity|].
  rewrite scan_step_finite.
  inversion Hnz as [|? ? Hva Hnz']; subst.
  apply Qeq_bool_ne in Hva. rewrite Hva.
  destruct Hadj as [Hab Hadj].
  destruct (Qltb (va * vb) 0) eqn:E; [apply Qltb_lt in E; contradiction|].
  apply IH; assumption.
Qed.

(** Whatever the scan returns comes from the grid. *)
Lemma scan_from_grid (ls : list Q) (vals : list float64) (sc : list (Q * Q)) :
  match scan ls vals sc with
  | ZeroAt x => List.In x ls
  | Brackets out =>
      forall a b, List.In (a, b) out ->
                  List.In (a, b) sc \/ (List.In a ls /\ List.In b ls)
  end.
Proof.
  revert vals sc. induction ls as [|a ls IH]; intros vals sc.
  - simpl. auto.
  - destruct ls as [|b ls]; [simpl; auto|].
    destruct vals as [|va vals]; [simpl; auto|].
    destruct vals as [|vb vals]; [simpl; auto|].
    rewrite scan_step. destruct (feqb va (Finite 0)); [left; reflexivity|].
    destruct (fltb (fmul va vb) (Finite 0)).
    + specialize (IH (vb :: vals) (sc ++ [(a, b)])).
      destruct (scan (b :: ls) (vb :: vals) (sc ++ [(a, b)])) as [x|out].
      * right; exact IH.
      * intros a' b' Hin. destruct (IH a' b' Hin) as [H|[H1 H2]].
        -- apply List.in_app_or in H as [H|H]; [left; exact H|].
           destruct H as [H|[]]. inversion H; subst.
           right. split; [left; reflexivity | right; left; reflexivity].
        -- right. split; right; assumption.
    + specialize (IH (vb :: vals) sc).
      destruct (scan (b :: ls) (vb :: vals) sc) as [x|out].
      * right; exact IH.
      * intros a' b' Hin. destruct (IH a' b' Hin) as [H|[H1 H2]]; [left; exact H|].
        right. split; right; assumption.
Qed.

(** ** Bisection stays inside the bracket's range *)

Lemma bisect_range (cf : list Q) (tol : Q) (iters : nat) (lo hi a b : Q)
    (fa fb : float64) :
  lo <= a <= hi -> lo <= b <= hi ->
  lo <= bisect cf tol iters a b fa fb <= hi.
Proof.
  revert a b fa fb. induction iters as [|n IH]; intros a b fa fb Ha Hb;
    cbn [bisect].
  - assert ((a + b) / 2 == (a + b) * (1 # 2)) by field. lra.
  - assert (Hm : lo <= (a + b) / 2 <= hi).
    { assert ((a + b) / 2 == (a + b) * (1 # 2)) by field. lra. }
    destruct (fltb (fabs (f cf (Finite ((a + b) / 2)))) (Finite tol)); [exact Hm|].
    destruct (fltb (fmul fa (f cf (Finite ((a + b) / 2)))) (Finite 0)).
    + exact (IH a ((a + b) / 2) fa _ Ha Hm).
    + exact (IH ((a + b) / 2) b _ fb Hm Hb).
Qed.

Lemma fallback_range (cf : list Q) (tol r : Q) :
  fallback cf tol = Some r -> - (9999 # 10000) <= r <= 5.
Proof.
  unfold fallback. generalize lows_range. generalize lows. generalize 100%nat.
  intros n ls Hl H.
  rewrite List.Forall_forall in Hl.
  pose proof (scan_from_grid ls (map (fun x => f cf (Finite x)) ls) []) as Hs.
  destruct (scan ls (map (fun x => f cf (Finite x)) ls) []) as [x|out].
  - inversion H; subst. apply Hl, Hs.
  - destruct out as [|[a b] out]; [discriminate|].
    destruct (Hs a b (or_introl eq_refl)) as [[]|[Ha Hb]].
    injection H as <-.
    apply bisect_range; [apply Hl, Ha | apply Hl, Hb].
Qed.

(** The values sampled on a grid inside the discounting domain are
    numbers. *)
Lemma grid_values (cf : list Q) (ls : list Q) :
  List.Forall (fun x => 0 < 1 + x) ls ->
  exists vals, map (fun x => f cf (Finite x)) ls = map Finite vals
               /\ Forall2 (fun x v => f cf (Finite x) = Finite v) ls vals.
Proof.
  induction 1 as [|x ls Hx _ (vals & Hr & Hv)]; cbn [map].
  - exists []. split; [reflexivity | constructor].
  - destruct (f_value cf x) as (v & Hf & _); [lra|].
    rewrite Hf, Hr. exists (v :: vals). split; [reflexivity|].
    constructor; assumption.
Qed.

Lemma lows_in_domain : List.Forall (fun x => 0 < 1 + x) lows.
Proof.
  eapply List.Forall_impl; [|exact lows_range]. intros x [H _]. lra.
Qed.

Lemma fallback_no_root (cf : list Q) (tol : Q) (vals : list Q) :
  map (fun x => f cf (Finite x)) lows = map Finite vals ->
  List.Forall (fun v => ~ v == 0) vals ->
  adjacent (fun va vb => ~ va * vb < 0) vals ->
  fallback cf tol = None.
Proof.
  unfold fallback. generalize lows. intros ls Hr Hnz Hadj.
  cbv zeta. rewrite Hr.
  now rewrite (scan_no_root ls vals [] Hnz Hadj).
Qed.

Lemma adjacent_of_Forall {A : Type} (P : A -> Prop) (R : A -> A -> Prop) (l : list A) :
  (forall a b, P a -> P b -> R a b) -> List.Forall P l -> adjacent R l.
Proof.
  intros HR H. induction H as [|a l Ha Hl IH]; [exact I|].
  destruct l as [|b l]; [exact I|].
  split; [|exact IH]. inversion Hl; subst. now apply HR.
Qed.

(** On cashflows of one sign every sampled value has that sign. *)
Lemma grid_values_sign (cf : list Q) (tol : Q) (ls : list Q) :
  uniform_sign tol cf ->
  List.Forall (fun x => 0 < 1 + x) ls ->
  exists vals, map (fun x => f cf (Finite x)) ls = map Finite vals
               /\ (List.Forall (fun v => 0 < v) vals
                   \/ List.Forall (fun v => v < 0) vals).
Proof.
  intros Hu Hls.
  assert (Hsign : List.Forall (fun c => 0 < c) cf \/ List.Forall (fun c => c < 0) cf).
  { destruct cf; [contradiction|]. destruct Hu as [[H _]|[H _]]; auto. }
  destruct Hsign as [Hpos|Hneg].
  - assert (exists vals, map (fun x => f cf (Finite x)) ls = map Finite vals
                         /\ List.Forall (fun v => 0 < v) vals)
      as (vals & Hr & Hv).
    { induction Hls as [|x ls Hx _ (vals & Hr & Hv)]; cbn [map].
      - exists []. split; [reflexivity | constructor].
      - destruct (uniform_sign_far tol cf x Hu Hx) as (v & -> & _ & _ & Hp & _).
        rewrite Hr. exists (v :: vals). split; [reflexivity|].
        constructor; auto. }
    eauto.
  - assert (exists vals, map (fun x => f cf (Finite x)) ls = map Finite vals
                         /\ List.Forall (fun v => v < 0) vals)
      as (vals & Hr & Hv).
    { induction Hls as [|x ls Hx _ (vals & Hr & Hv)]; cbn [map].
      - exists []. split; [reflexivity | constructor].
      - destruct (uniform_sign_far tol cf x Hu Hx) as (v & -> & _ & _ & _ & Hn).
        rewrite Hr. exists (v :: vals). split; [reflexivity|].
        constructor; auto. }
    eauto.
Qed.

Lemma uniform_sign_no_root (cf : list Q) (tol : Q) :
  uniform_sign tol cf -> no_root_sampled cf.
Proof.
  intros Hu.
  destruct (grid_values_sign cf tol lows Hu lows_in_domain) as (vals & Hr & Hs).
  exists vals. split; [exact Hr|]. destruct Hs as [Hp|Hn].
  - split.
    + eapply List.Forall_impl; [|exact Hp]. intros v Hv Hz. cbv beta in Hv. lra.
    + eapply adjacent_of_Forall; [|exact Hp]. intros a b Ha Hb Hab.
      cbv beta in Ha, Hb. pose proof (Qmult_lt_0_compat a b Ha Hb). lra.
  - split.
    + eapply List.Forall_impl; [|exact Hn]. intros v Hv Hz. cbv beta in Hv. lra.
    + eapply adjacent_of_Forall; [|exact Hn]. intros a b Ha Hb Hab. cbv beta in Ha, Hb.
      assert (0 < (- a) * (- b)) by (apply Qmult_lt_0_compat; lra).
      assert ((- a) * (- b) == a * b) by ring. lra.
Qed.

Lemma irr_uniform_sign (cf : list Q) (guess tol : Q) (maxiter : Z) :
  uniform_sign tol cf -> 0 < 1 + guess ->
  irr cf guess tol maxiter = None.
Proof.
  intros Hu Hg. unfold irr.
  rewrite (newton_uniform_sign cf tol _ guess Hu Hg).
  destruct (uniform_sign_no_root cf tol Hu) as (vals & Hr & Hnz & Hadj).
  now rewrite (fallback_no_root cf tol vals Hr Hnz Hadj).
Qed.

(** ** The first bracket and its bisection *)

Lemma scan_keeps_brackets (ls : list Q) (vals : list float64)
    (sc out : list (Q * Q)) :
  scan ls vals sc = Brackets out -> exists tail, out = sc ++ tail.
Proof.
  revert vals sc. induction ls as [|a ls IH]; intros vals sc H.
  - inversion H; subst. exists []. now rewrite app_nil_r.
  - destruct ls as [|b ls];
      [inversion H; subst; exists []; now rewrite app_nil_r|].
    destruct vals as [|va vals];
      [inversion H; subst; exists []; now rewrite app_nil_r|].
    destruct vals as [|vb vals];
      [inversion H; subst; exists []; now rewrite app_nil_r|].
    rewrite scan_step in H. destruct (feqb va (Finite 0)); [discriminate|].
    destruct (fltb (fmul va vb) (Finite 0)).
    + apply IH in H as (tail & ->). exists ((a, b) :: tail).
      now rewrite <- app_assoc.
    + now apply IH in H.
Qed.

(** When the scan ends with brackets, the first one is the leftmost pair of
    neighbours whose values have opposite signs, and no value scanned, the
    last one of the grid apart, is zero. *)
Lemma scan_first_bracket (ls vals : list Q) (a b : Q) (rest : list (Q * Q)) :
  scan ls (map Finite vals) [] = Brackets ((a, b) :: rest) ->
  exists ls1 ls2 vs1 va vb vs2,
    ls = ls1 ++ a :: b :: ls2
    /\ vals = vs1 ++ va :: vb :: vs2
    /\ length ls1 = length vs1
    /\ va * vb < 0
    /\ List.Forall (fun v => ~ v == 0) (vs1 ++ [va])
    /\ adjacent (fun x y => ~ x * y < 0) (vs1 ++ [va]).
Proof.
  revert vals. induction ls as [|a0 ls IH]; intros vals H; [discriminate|].
  destruct ls as [|b0 ls]; [discriminate|].
  destruct vals as [|v0 vals]; [discriminate|].
  destruct vals as [|v1 vals]; [discriminate|].
  rewrite scan_step_finite in H. destruct (Qeq_bool v0 0) eqn:Ez; [discriminate|].
  apply Qeq_bool_ne in Ez.
  destruct (Qltb (v0 * v1) 0) eqn:Es.
  - apply Qltb_lt in Es.
    destruct (scan_keeps_brackets _ _ _ _ H) as (tail & Ht).
    cbn [app] in Ht. inversion Ht; subst.
    exists [], ls, [], v0, v1, vals. cbn [app length].
    split; [reflexivity|]. split; [reflexivity|]. split; [reflexivity|].
    split; [exact Es|]. split; [|exact I].
    constructor; [exact Ez | constructor].
  - apply Qltb_ge in Es.
    destruct (IH _ H) as (ls1 & ls2 & vs1 & va & vb & vs2 & E1 & E2 & Hl & Hs & Hz & Ha).
    exists (a0 :: ls1), ls2, (v0 :: vs1), va, vb, vs2.
    cbn [app length]. rewrite E1, E2.
    split; [reflexivity|]. split; [reflexivity|]. split; [now rewrite Hl|].
    split; [exact Hs|]. split; [constructor; assumption|].
    destruct vs1 as [|v vs1]; cbn [app] in *.
    + inversion E2; subst. split; [lra | exact I].
    + inversion E2; subst. split; [lra | exact Ha].
Qed.

(** A bisection has met the tolerance at the midpoint it returns, or has
    halved the bracket [iters] times and returns the midpoint of what is
    left. *)
Lemma bisect_stops (cf : list Q) (tol : Q) (iters : nat) (a b : Q)
    (fa fb : float64) :
  (exists fr, f cf (Finite (bisect cf tol iters a b fa fb)) = Finite fr
              /\ Qabs fr < tol)
  \/ (exists a' b', bisect cf tol iters a b fa fb = (a' + b') / 2
                    /\ Qabs (b' - a') * 2 ^ Z.of_nat iters == Qabs (b - a)).
Proof.
  revert a b fa fb. induction iters as [|n IH]; intros a b fa fb.
  - cbn [bisect]. right. exists a, b.
    split; [reflexivity|]. change (2 ^ Z.of_nat 0) with 1. ring.
  - cbn [bisect].
    destruct (fltb (fabs (f cf (Finite ((a + b) / 2)))) (Finite tol)) eqn:Et.
    + left. apply fabs_below in Et as (fm & Hfm & Hlt). eauto.
    + assert (Hpow : 2 ^ Z.of_nat (S n) == 2 * 2 ^ Z.of_nat n).
      { rewrite Nat2Z.inj_succ. unfold Z.succ.
        rewrite Qpower_plus by discriminate. change (2 ^ 1) with 2. ring. }
      assert (Hhalf : forall x, Qabs (x * (1 # 2)) * 2 == Qabs x).
      { intros x. rewrite Qabs_Qmult. change (Qabs (1 # 2)) with (1 # 2). field. }
      destruct (fltb (fmul fa (f cf (Finite ((a + b) / 2)))) (Finite 0)).
      * destruct (IH a ((a + b) / 2) fa (f cf (Finite ((a + b) / 2))))
          as [Hl|(a' & b' & Hr & Hw)]; [now left|].
        right. exists a', b'. split; [exact Hr|].
        rewrite Hpow.
        assert (E : (a + b) / 2 - a == (b - a) * (1 # 2)) by field.
        rewrite E in Hw. rewrite <- (Hhalf (b - a)), <- Hw. ring.
      * destruct (IH ((a + b) / 2) b (f cf (Finite ((a + b) / 2))) fb)
          as [Hl|(a' & b' & Hr & Hw)]; [now left|].
        right. exists a', b'. split; [exact Hr|].
        rewrite Hpow.
        assert (E : b - (a + b) / 2 == (b - a) * (1 # 2)) by field.
        rewrite E in Hw. rewrite <- (Hhalf (b - a)), <- Hw. ring.
Qed.

(** When the Newton loop ends without a rate and no sampled value but
    possibly the last is zero, [irr] bisects the first bracket of the grid
    [lows] for at most 100 passes. *)
Lemma irr_bisects_first_bracket (cf : list Q) (guess tol : Q) (maxiter : Z)
    (a b : Q) (rest : list (Q * Q)) :
  newton cf tol (Z.to_nat maxiter) (Finite guess) = None ->
  scan lows (map (fun x => f cf (Finite x)) lows) [] = Brackets ((a, b) :: rest) ->
  exists fa fb,
    f cf (Finite a) = Finite fa /\ f cf (Finite b) = Finite fb
    /\ irr cf guess tol maxiter
       = Some (Finite (bisect cf tol 100 a b (Finite fa) (Finite fb))).
Proof.
  intros Hn Hs. unfold irr, fallback. rewrite Hn. cbv zeta. rewrite Hs.
  pose proof (scan_from_grid lows (map (fun x => f cf (Finite x)) lows) []) as Hg.
  rewrite Hs in Hg.
  destruct (Hg a b (or_introl eq_refl)) as [[]|[Ha Hb]].
  pose proof lows_in_domain as Hd. rewrite List.Forall_forall in Hd.
  destruct (f_value cf a) as (fa & Hfa & _); [pose proof (Hd a Ha); lra|].
  destruct (f_value cf b) as (fb & Hfb & _); [pose proof (Hd b Hb); lra|].
  exists fa, fb. rewrite Hfa, Hfb. auto.
Qed.

(** ** Claims about [irr] *)

(** C3 (as amended).  [irr] reports absence, without raising, on every
    cashflow sequence whose terms are all positive with the period-0 term
    at least the tolerance, or all negative with the period-0 term at most
    minus the tolerance, from any guess above -1; and, in general, whenever
    the Newton loop ends without returning a rate, no sampled grid value is
    zero and no pair of adjacent grid points brackets a sign change. *)
Theorem irr_absent_without_root (cf : list Q) (guess tol : Q) (maxiter : Z) :
  (uniform_sign tol cf /\ 0 < 1 + guess)
  \/ (newton cf tol (Z.to_nat maxiter) (Finite guess) = None /\ no_root_sampled cf) ->
  irr cf guess tol maxiter = None.
Proof.
  intros [[Hu Hg]|[Hn (vals & Hr & Hnz & Hadj)]].
  - now apply irr_uniform_sign.
  - unfold irr. rewrite Hn.
    now rewrite (fallback_no_root cf tol vals Hr Hnz Hadj).
Qed.

Lemma irr_absent_without_root_witness :
  irr [1000; 200; 300] default_guess default_tol default_maxiter = None.
Proof.
  apply irr_absent_without_root. left. split.
  - left. split.
    + repeat constructor.
    + vm_compute. discriminate.
  - reflexivity.
Defined.

(** The claim C3 as stated fails: a sequence of positive terms whose value
    at the guess is within the tolerance makes the Newton loop return the
    guess at once, although the grid shows neither a zero nor a sign
    change. *)
Lemma irr_tiny_positive_returns_guess :
  List.Forall (fun c => 0 < c) [1 # 1000000000]
  /\ no_root_sampled [1 # 1000000000]
  /\ irr [1 # 1000000000] default_guess default_tol default_maxiter
     = Some (Finite default_guess).
Proof.
  split; [repeat constructor|]. split.
  - apply (uniform_sign_no_root _ (1 # 1000000000)).
    left. split; [repeat constructor | apply Qle_refl].
  - vm_compute. reflexivity.
Qed.

(** C10.  From a guess above -0.999999, a rate returned by [irr] is a
    number above -1: it is the guess or an accepted Newton iterate, both
    above -0.999999, or a grid point or bisection midpoint inside
    [-0.9999, 5]. *)
Theorem irr_rate_above_minus_one (cf : list Q) (guess tol : Q) (maxiter : Z)
    (x : float64) :
  - (999999 # 1000000) < guess ->
  irr cf guess tol maxiter = Some x ->
  exists r,
    x = Finite r
    /\ -1 < r
    /\ ((newton cf tol (Z.to_nat maxiter) (Finite guess) = Some (Finite r)
         /\ - (999999 # 1000000) < r)
        \/ (newton cf tol (Z.to_nat maxiter) (Finite guess) = None
            /\ - (9999 # 10000) <= r <= 5)).
Proof.
  intros Hg H. unfold irr in H.
  destruct (newton cf tol (Z.to_nat maxiter) (Finite guess)) as [x'|] eqn:E.
  - injection H as <-.
    destruct (newton_returns_above cf tol _ guess x' Hg E) as (r & -> & Hr).
    exists r. split; [reflexivity|]. split; [lra|].
    left. split; [reflexivity | exact Hr].
  - destruct (fallback cf tol) as [r|] eqn:Ef; [|discriminate].
    injection H as <-.
    pose proof (fallback_range cf tol r Ef).
    exists r. split; [reflexivity|]. split; [lra|].
    right. split; [reflexivity | assumption].
Qed.

Lemma irr_rate_above_minus_one_witness :
  exists r, irr [-5000; 5000] default_guess default_tol default_maxiter
            = Some (Finite r)
            /\ -1 < r.
Proof.
  destruct (irr [-5000; 5000] default_guess default_tol default_maxiter) as [x|] eqn:H;
    [|vm_compute in H; discriminate].
  destruct (irr_rate_above_minus_one [-5000; 5000] default_guess default_tol
              default_maxiter x) as (r & -> & Hr & _); [reflexivity | exact H |].
  exists r. split; [reflexivity | exact Hr].
Defined.

(** C4, the scan's zero test.  The loop tests [vals[i] == 0] for the
    indices [0 .. len(vals) - 2] only, so a value that is exactly zero at
    the last grid point, the rate 5.0, is never returned: for the
    cashflows [-1, 6], whose value at the rate 5.0 is exactly zero, a call
    whose Newton step leaves the domain ends with the absent marker. *)
Theorem irr_misses_zero_at_last_grid_point :
  last lows = Some 5
  /\ (exists v, f [-1; 6] (Finite 5) = Finite v /\ v == 0)
  /\ newton [-1; 6] default_tol 200 (Finite 11) = None
  /\ irr [-1; 6] 11 default_tol 200 = None.
Proof.
  split; [vm_compute; reflexivity|]. split.
  - eexists. split; vm_compute; reflexivity.
  - split; vm_compute; reflexivity.
Qed.

Lemma newton_break_even_value :
  exists r, irr [-5000; 5000] default_guess default_tol default_maxiter
            = Some (Finite r)
            /\ ~ r == 0.
Proof.
  eexists. split; [vm_compute; reflexivity|].
  vm_compute. discriminate.
Qed.

(** C5 (as amended).  For the cashflows [-5000, 5000] the net value at the
    rate 0.10 is -5000/11, within half a cent of -454.55, and [irr] with the
    default guess returns the fourth Newton iterate, -10^-16: a rate within
    10^-15 of zero, not zero. *)
Theorem scenario_b :
  exists v r,
    npv (1 # 10) [-5000; 5000] = Ok v
    /\ v == - (5000 # 11)
    /\ Qabs (v - - (45455 # 100)) < 5 # 1000
    /\ irr [-5000; 5000] default_guess default_tol default_maxiter = Some (Finite r)
    /\ r == - (1 # 10000000000000000)
    /\ Qabs r < 1 # 1000000000000000.
Proof.
  do 2 eexists.
  split; [vm_compute; reflexivity|].
  split; [vm_compute; reflexivity|].
  split; [vm_compute; reflexivity|].
  split; [vm_compute; reflexivity|].
  split; vm_compute; reflexivity.
Qed.

(** The claim C5 as stated fails: the rate returned for [-5000, 5000] is not
    zero. *)
Lemma scenario_b_rate_not_zero :
  ~ (exists r, irr [-5000; 5000] default_guess default_tol default_maxiter
               = Some (Finite r) /\ r == 0).
Proof.
  intros (r & Hr & Hz).
  destruct newton_break_even_value as (r' & Hr' & Hne).
  rewrite Hr in Hr'. inversion Hr'; subst. contradiction.
Qed.

(** ** The stable sort *)

Section StableSortFacts.
Context {A : Type} (stays_before : A -> A -> bool).

Lemma insert_sorted_perm (x : A) (l : list A) :
  Permutation (insert_sorted stays_before x l) (x :: l).
Proof.
  induction l as [|y l IH]; simpl; [reflexivity|].
  destruct (stays_before y x); [|reflexivity].
  rewrite IH. apply perm_swap.
Qed.

Lemma stable_sort_perm (l : list A) : Permutation (stable_sort stays_before l) l.
Proof.
  induction l as [|x l IH]; simpl; [reflexivity|].
  rewrite insert_sorted_perm. now constructor.
Qed.


(** The order [R] the sort establishes: [y] stays before [x] only if
    [R y x], and [x] stops in front of [y] only if [R x y]. *)
Context (R : A -> A -> Prop).
Hypothesis R_trans : forall a b c, R a b -> R b c -> R a c.
Hypothesis before_R : forall y x, stays_before y x = true -> R y x.
Hypothesis stop_R : forall y x, stays_before y x = false -> R x y.

Lemma insert_sorted_sorted (x : A) (l : list A) :
  StronglySorted R l -> StronglySorted R (insert_sorted stays_before x l).
Proof using R_trans before_R stop_R.
  induction 1 as [|y l Hl IH Hy]; simpl.
  - repeat constructor.
  - destruct (stays_before y x) eqn:E.
    + constructor; [exact IH|].
      eapply Permutation_Forall; [symmetry; apply insert_sorted_perm|].
      constructor; [now apply before_R | exact Hy].
    + constructor; [now constructor|].
      constructor; [now apply stop_R|].
      eapply List.Forall_impl; [|exact Hy].
      intros z Hz. eapply R_trans; [apply stop_R, E | exact Hz].
Qed.

Lemma stable_sort_sorted (l : list A) : StronglySorted R (stable_sort stays_before l).
Proof using R_trans before_R stop_R.
  induction l as [|x l IH]; simpl; [constructor|].
  now apply insert_sorted_sorted.
Qed.
End StableSortFacts.

(** Stability: elements that never stay before one another keep their
    input order. *)
Lemma insert_sorted_filter {A : Type} (stays_before : A -> A -> bool)
    (P : A -> bool) (x : A) (l : list A) :
  (forall a b, P a = true -> P b = true -> stays_before a b = false) ->
  List.filter P (insert_sorted stays_before x l) = List.filter P (x :: l).
Proof.
  intros HP. induction l as [|y l IH]; [reflexivity|].
  cbn [insert_sorted]. destruct (stays_before y x) eqn:E; [|reflexivity].
  cbn [List.filter] in *. rewrite IH.
  destruct (P y) eqn:Ey, (P x) eqn:Ex; try reflexivity.
  rewrite (HP y x Ey Ex) in E. discriminate.
Qed.

Lemma stable_sort_filter {A : Type} (stays_before : A -> A -> bool)
    (P : A -> bool) (l : list A) :
  (forall a b, P a = true -> P b = true -> stays_before a b = false) ->
  List.filter P (stable_sort stays_before l) = List.filter P l.
Proof.
  intros HP. induction l as [|x l IH]; [reflexivity|].
  cbn [stable_sort]. rewrite insert_sorted_filter by exact HP.
  cbn [List.filter]. now rewrite IH.
Qed.

(** ** Percentiles *)



Lemma inject_nat_le (n m : nat) : (n <= m)%nat -> inject_nat n <= inject_nat m.
Proof.
  intros H. unfold inject_nat. rewrite <- Zle_Qle. lia.
Qed.



(** *** Samples of finite values *)









Lemma percentile_nonempty (a : list float64) (q : Q) :
  a <> [] -> exists v, percentile a q = Ok v.
Proof.
  destruct a as [|x a]; [congruence|]. intros _. unfold percentile.
  destruct (existsb is_nan (x :: a)); eauto.
Qed.

(** A sample that holds a nan has nan percentiles. *)
Lemma percentile_nan (a : list float64) (q : Q) :
  existsb is_nan a = true -> percentile a q = Ok NaN.
Proof.
  destruct a as [|x a]; [discriminate|]. intros H. unfold percentile. now rewrite H.
Qed.

(** ** The simulator and the evaluator *)

Section SimulationFacts.
Context `{RS : RandomSource} (np_sqrt : Q -> Q).

Lemma bind_ok {A B : Type} (m : M A) (k : A -> M B) (w w' : world) (a : A) :
  m w = (Ok a, w') -> bind m k w = k a w'.
Proof. unfold bind. now intros ->. Qed.

Lemma bind_raise {A B : Type} (m : M A) (k : A -> M B) (w w' : world) (e : exn) :
  m w = (Raise e, w') -> bind m k w = (Raise e, w').
Proof. unfold bind. now intros ->. Qed.

Lemma summarize_fields (n_sim : Z) (sims : list float64) (s : summary) :
  summarize np_sqrt n_sim sims = Ok s ->
  s_n_sim s = n_sim /\ s_samples s = sims
  /\ percentile sims 5 = Ok (s_p5 s) /\ percentile sims 25 = Ok (s_p25 s)
  /\ percentile sims 50 = Ok (s_p50 s) /\ percentile sims 75 = Ok (s_p75 s)
  /\ percentile sims 95 = Ok (s_p95 s)
  /\ s_mean s = np_mean sims /\ s_std s = np_std np_sqrt sims.
Proof.
  unfold summarize. intros H.
  destruct (percentile sims 5); cbn [rbind] in H; [|discriminate].
  destruct (percentile sims 25); cbn [rbind] in H; [|discriminate].
  destruct (percentile sims 50); cbn [rbind] in H; [|discriminate].
  destruct (percentile sims 75); cbn [rbind] in H; [|discriminate].
  destruct (percentile sims 95); cbn [rbind] in H; [|discriminate].
  inversion H; subst; cbn. auto 10.
Qed.

Lemma summarize_nonempty (n_sim : Z) (sims : list float64) :
  sims <> [] -> exists s, summarize np_sqrt n_sim sims = Ok s.
Proof.
  intros Hne. unfold summarize.
  destruct (percentile_nonempty sims 5 Hne) as (p5 & ->).
  destruct (percentile_nonempty sims 25 Hne) as (p25 & ->).
  destruct (percentile_nonempty sims 50 Hne) as (p50 & ->).
  destruct (percentile_nonempty sims 75 Hne) as (p75 & ->).
  destruct (percentile_nonempty sims 95 Hne) as (p95 & ->).
  cbn [rbind]. eauto.
Qed.

(** The statistics of an empty sample: the mean and the deviation are nan,
    and the first percentile asked for raises. *)
Lemma summarize_empty (n_sim : Z) :
  np_mean [] = NaN /\ np_std np_sqrt [] = NaN
  /\ percentile [] 5 = Raise IndexError
  /\ summarize np_sqrt n_sim [] = Raise IndexError.
Proof. repeat split. Qed.

(** What a returned summary was computed from. *)
Lemma monte_carlo_npv_inv (cf : list Q) (rate : Q) (n_sim : Z) (sigma : Q)
    (seed : option Z) (w : world) (s : summary) :
  fst (monte_carlo_npv np_sqrt cf rate n_sim sigma seed w) = Ok s ->
  exists sims w0 w1,
    match seed with
    | Some s0 => bind (np_random_seed s0) (fun _ => random_seed s0)
    | None => ret tt
    end w = (Ok tt, w0)
    /\ trials cf rate sigma (Z.to_nat n_sim) [] w0 = (Ok sims, w1)
    /\ summarize np_sqrt n_sim sims = Ok s.
Proof.
  unfold monte_carlo_npv, bind at 1. intros H.
  destruct (match seed with
            | Some s0 => bind (np_random_seed s0) (fun _ => random_seed s0)
            | None => ret tt
            end w) as [[[]|e] w0]; [|discriminate].
  unfold bind, lift in H.
  destruct (trials cf rate sigma (Z.to_nat n_sim) [] w0) as [[sims|e] w1] eqn:E;
    [|discriminate].
  cbn in H. eauto 10.
Qed.

(** The trial loop appends one value per pass. *)
Lemma trials_length (cf : list Q) (rate sigma : Q) (n : nat)
    (sims out : list float64) (w w' : world) :
  trials cf rate sigma n sims w = (Ok out, w') ->
  length out = (length sims + n)%nat.
Proof.
  revert sims w. induction n as [|n IH]; intros sims w H; cbn [trials] in H.
  - inversion H; subst. lia.
  - unfold bind in H.
    destruct (trial cf rate sigma w) as [[v|e] w0]; [|discriminate].
    apply IH in H. rewrite length_app in H. simpl in H. lia.
Qed.



Lemma seeding_ok (seed : option Z) (w : world) :
  valid_seed seed ->
  exists w0, match seed with
             | Some s => bind (np_random_seed s) (fun _ => random_seed s)
             | None => ret tt
             end w = (Ok tt, w0).
Proof.
  destruct seed as [s|]; intros Hv; [|unfold ret; eauto].
  unfold bind, np_random_seed, random_seed. simpl in Hv.
  assert (((0 <=? s) && (s <? 2 ^ 32))%Z = true) as ->.
  { apply andb_true_iff. split; [apply Z.leb_le | apply Z.ltb_lt]; lia. }
  eauto.
Qed.





(** ** Determinism under a seed *)

Lemma monte_carlo_npv_seeded (cf : list Q) (rate : Q) (n_sim : Z) (sigma : Q)
    (seed : Z) (w1 w2 : world) :
  fst (monte_carlo_npv np_sqrt cf rate n_sim sigma (Some seed) w1)
  = fst (monte_carlo_npv np_sqrt cf rate n_sim sigma (Some seed) w2).
Proof.
  unfold monte_carlo_npv. unfold bind at 1 3.
  unfold bind at 2 4. unfold np_random_seed, random_seed.
  destruct ((0 <=? seed) && (seed <? 2 ^ 32))%Z; reflexivity.
Qed.

(** C7.  With a seed, two calls with the same arguments return the same
    outcome, samples included, whatever state the generators were in when
    each call started; so does [evaluate_project] with the simulation
    enabled. *)
Theorem seeded_runs_agree (cf : list Q) (rate : Q) (n_sim : Z) (sigma : Q)
    (seed : Z) (w1 w2 : world) :
  fst (monte_carlo_npv np_sqrt cf rate n_sim sigma (Some seed) w1)
  = fst (monte_carlo_npv np_sqrt cf rate n_sim sigma (Some seed) w2)
  /\ fst (evaluate_project np_sqrt cf rate true n_sim sigma (Some seed) w1)
     = fst (evaluate_project np_sqrt cf rate true n_sim sigma (Some seed) w2).
Proof.
  split; [apply monte_carlo_npv_seeded|].
  unfold evaluate_project.
  destruct (npv rate cf) as [van|e]; [|reflexivity].
  destruct (benefit_cost_ratio cf rate) as [bc|e]; [|reflexivity].
  pose proof (monte_carlo_npv_seeded cf rate n_sim sigma seed w1 w2) as Hmc.
  unfold bind, lift, ret. cbv beta iota zeta.
  destruct (monte_carlo_npv np_sqrt cf rate n_sim sigma (Some seed) w1)
    as [[s1|e1] w1'],
    (monte_carlo_npv np_sqrt cf rate n_sim sigma (Some seed) w2)
    as [[s2|e2] w2']; cbn in *; congruence.
Qed.

(** ** The period-0 outlay and single-period sequences *)

(** The value a trial collects: the outlay is kept, each later cashflow is
    multiplied by the draw the sampler made for it. *)
Lemma trial_value (c0 : Q) (rest : list Q) (rate sigma : Q) (w w' : world)
    (v : float64) :
  trial (c0 :: rest) rate sigma w = (Ok v, w') ->
  exists shocks,
    length shocks = length rest
    /\ (rest <> [] ->
        shocks = fst (normal (np_state w) 1 sigma (length rest))
        /\ np_state w' = snd (normal (np_state w) 1 sigma (length rest)))
    /\ (rest = [] -> w' = w)
    /\ py_state w' = py_state w
    /\ v = scenario_value rate c0 rest shocks.
Proof.
  unfold trial, draw_shocks. destruct rest as [|c1 rest].
  - cbn. intros H. injection H as <- <-. exists [].
    split; [reflexivity|]. split; [congruence|]. auto.
  - cbn [length Nat.ltb Nat.leb]. unfold bind, np_random_normal, ret.
    destruct (Qltb sigma 0); [discriminate|].
    change (S (S (length rest)) - 1)%nat with (S (length rest)).
    pose proof (normal_length (np_state w) 1 sigma (S (length rest))) as Hl.
    destruct (normal (np_state w) 1 sigma (S (length rest))) as [draws g].
    cbn [fst snd] in *. intros H. injection H as <- <-. exists draws.
    split; [exact Hl|]. split; [auto|]. split; [discriminate|].
    split; reflexivity.
Qed.

Lemma trial_single (c rate sigma : Q) (w : world) :
  trial [c] rate sigma w = (Ok (Finite (0 + c * 1 / 1)), w).
Proof. reflexivity. Qed.

Lemma trials_single (c rate sigma : Q) (n : nat) (sims : list float64) (w : world) :
  trials [c] rate sigma n sims w
  = (Ok (sims ++ repeat (Finite (0 + c * 1 / 1)) n), w).
Proof.
  revert sims. induction n as [|n IH]; intros sims; cbn [trials repeat].
  - unfold ret. now rewrite app_nil_r.
  - rewrite (bind_ok _ _ _ _ _ (trial_single c rate sigma w)).
    rewrite IH, <- app_assoc. reflexivity.
Qed.

(** On a sequence of length 1 the simulator returns [n_sim] values, all
    equal to the outlay. *)
Lemma single_period_summary (c rate sigma : Q) (n_sim : Z) (seed : option Z)
    (w : world) :
  (1 <= n_sim)%Z -> valid_seed seed ->
  exists s w',
    monte_carlo_npv np_sqrt [c] rate n_sim sigma seed w = (Ok s, w')
    /\ s_n_sim s = n_sim
    /\ Z.of_nat (length (s_samples s)) = n_sim
    /\ List.Forall (fun v => has_value v c) (s_samples s).
Proof.
  intros Hn Hseed. unfold monte_carlo_npv.
  destruct (seeding_ok seed w Hseed) as (w0 & Hw0).
  rewrite (bind_ok _ _ _ _ _ Hw0).
  rewrite (bind_ok _ _ _ _ _ (trials_single c rate sigma (Z.to_nat n_sim) [] w0)).
  unfold lift. cbn [app].
  destruct (summarize_nonempty n_sim (repeat (Finite (0 + c * 1 / 1)) (Z.to_nat n_sim)))
    as (s & Hsum).
  { destruct (Z.to_nat n_sim) eqn:E; [lia | discriminate]. }
  rewrite Hsum. exists s, w0. split; [reflexivity|].
  destruct (summarize_fields _ _ _ Hsum) as (H1 & H2 & _).
  rewrite H1, H2, repeat_length. split; [reflexivity|]. split; [lia|].
  apply List.Forall_forall. intros v Hv. apply repeat_spec in Hv. subst v.
  cbn [has_value]. field.
Qed.

(** C8 (as amended).  The value every trial collects is the net present
    value of the scenario that keeps the period-0 cashflow, shock 1, and
    multiplies each later cashflow by one draw of the sampler; and for a
    sequence of length 1, every rate and sigma, every trial count of at
    least 1 and every seed that is absent or fits 32 unsigned bits, the
    simulator returns, without error, [n_sim] values all equal to the
    outlay. *)
Theorem single_period_simulation (c rate sigma : Q) (n_sim : Z)
    (seed : option Z) (w : world) :
  (1 <= n_sim)%Z -> valid_seed seed ->
  (forall c0 rest rt sg w0 v w1,
      trial (c0 :: rest) rt sg w0 = (Ok v, w1) ->
      exists shocks,
        length shocks = length rest
        /\ (rest <> [] -> shocks = fst (normal (np_state w0) 1 sg (length rest)))
        /\ v = npv_np rt (c0 * 1 :: zip_with Qmult rest shocks))
  /\ exists s w',
      monte_carlo_npv np_sqrt [c] rate n_sim sigma seed w = (Ok s, w')
      /\ s_n_sim s = n_sim
      /\ Z.of_nat (length (s_samples s)) = n_sim
      /\ List.Forall (fun v => has_value v c) (s_samples s).
Proof.
  intros Hn Hseed. split.
  - intros c0 rest rt sg w0 v w1 H.
    destruct (trial_value c0 rest rt sg w0 w1 v H) as (shocks & Hl & Hd & _ & _ & Hv).
    exists shocks. split; [exact Hl|]. split; [|exact Hv].
    intros Hne. now destruct (Hd Hne).
  - now apply single_period_summary.
Qed.

(** ** The evaluator *)

Lemma evaluate_project_inv (cf : list Q) (tmar : Q) (montecarlo : bool)
    (mc_nsim : Z) (mc_sigma : Q) (mc_seed : option Z) (w : world) (rep : report) :
  fst (evaluate_project np_sqrt cf tmar montecarlo mc_nsim mc_sigma mc_seed w)
  = Ok rep ->
  npv tmar cf = Ok (r_van rep)
  /\ irr_default cf = r_tir rep
  /\ benefit_cost_ratio cf tmar = Ok (r_b_c rep)
  /\ (if montecarlo
      then exists s, r_montecarlo rep = Some s
                     /\ fst (monte_carlo_npv np_sqrt cf tmar mc_nsim mc_sigma
                               mc_seed w) = Ok s
      else r_montecarlo rep = None).
Proof.
  unfold evaluate_project.
  destruct (npv tmar cf) as [van|e]; [|discriminate].
  destruct (benefit_cost_ratio cf tmar) as [bc|e]; [|discriminate].
  unfold bind, lift, ret. cbv beta iota zeta.
  destruct montecarlo.
  - destruct (monte_carlo_npv np_sqrt cf tmar mc_nsim mc_sigma mc_seed w)
      as [[s|e] w']; [|discriminate].
    cbn. intros H. inversion H; subst; cbn. eauto 10.
  - cbn. intros H. inversion H; subst; cbn. auto.
Qed.

Lemma evaluate_project_returns (cf : list Q) (tmar : Q) (mc_nsim : Z)
    (mc_sigma : Q) (mc_seed : option Z) (w : world) (van : Q) (bc : option Q) :
  npv tmar cf = Ok van ->
  benefit_cost_ratio cf tmar = Ok bc ->
  exists rep,
    evaluate_project np_sqrt cf tmar false mc_nsim mc_sigma mc_seed w = (Ok rep, w).
Proof.
  intros Hv Hb. unfold evaluate_project. rewrite Hv, Hb.
  unfold bind, lift, ret. cbv beta iota zeta. eauto.
Qed.
End SimulationFacts.

(** ** Degenerate inputs *)

Lemma npv_single_eq (rate c : Q) : npv rate [c] = Ok (0 + c / 1).
Proof. reflexivity. Qed.


Lemma irr_single (c guess tol : Q) (maxiter : Z) :
  0 < tol -> tol <= Qabs c -> 0 < 1 + guess ->
  irr [c] guess tol maxiter = None.
Proof.
  intros Htol Hc Hg. apply irr_uniform_sign; [|exact Hg].
  destruct (Qlt_le_dec c 0) as [Hneg|Hpos].
  - right. rewrite (Qabs_neg c) in Hc by lra.
    split; [repeat constructor; exact Hneg | lra].
  - left. rewrite (Qabs_pos c) in Hc by exact Hpos.
    split; [repeat constructor; lra | exact Hc].
Qed.


(** The benefit/cost ratio of a lone outlay: undefined unless the outlay is
    a cost of at least 1e-12, in which case it is 0. *)
Lemma benefit_cost_ratio_single (c rate : Q) :
  exists bc, benefit_cost_ratio [c] rate = Ok bc
             /\ (- (1 # 1000000000000) < c -> bc = None)
             /\ (c <= - (1 # 1000000000000) -> exists z, bc = Some z /\ z == 0).
Proof.
  unfold benefit_cost_ratio. cbn [map]. rewrite !npv_single_eq. cbn [rbind].
  set (pv_c := 0 + (if Qltb c 0 then - c else 0) / 1).
  set (pv_b := 0 + (if Qltb 0 c then c else 0) / 1).
  assert (Hc : pv_c == if Qltb c 0 then - c else 0) by (unfold pv_c; field).
  destruct (Qltb (Qabs pv_c) (1 # 1000000000000)) eqn:E.
  - exists None. split; [reflexivity|]. split; [reflexivity|].
    intros Hle. exfalso. apply Qltb_lt in E.
    assert (Qltb c 0 = true) as Hlt by (apply Qltb_lt; lra).
    rewrite Hlt in Hc. rewrite Hc, Qabs_pos in E by lra. lra.
  - eexists. split; [reflexivity|]. apply Qltb_ge in E. split.
    + intros Hgt. exfalso. destruct (Qltb c 0) eqn:Hlt.
      * apply Qltb_lt in Hlt. rewrite Hc, Qabs_pos in E by lra. lra.
      * rewrite Hc in E. change (Qabs 0) with 0 in E. lra.
    + intros Hle. eexists. split; [reflexivity|].
      assert (Qltb 0 c = false) as Hb by (apply Qltb_ge; lra).
      assert (Qltb c 0 = true) as Hlt by (apply Qltb_lt; lra).
      unfold pv_b, pv_c. rewrite Hb, Hlt. field. lra.
Qed.

Section EvaluatorClaims.
Context `{RS : RandomSource} (np_sqrt : Q -> Q).

(** C2 (as amended).  For a sequence holding only the outlay [c], with
    [|c|] at least the tolerance 1e-8, [evaluate_project] without
    simulation returns a report, and every report it returns has net value
    [c] and no rate of return; its benefit/cost ratio is absent when
    [c > -1e-12] and is 0 when the outlay is a cost ([c <= -1e-12]). *)
Theorem evaluate_single_period (c tmar : Q) (mc_nsim : Z) (mc_sigma : Q)
    (mc_seed : option Z) (w : world) :
  default_tol <= Qabs c ->
  (exists rep, evaluate_project np_sqrt [c] tmar false mc_nsim mc_sigma mc_seed w
               = (Ok rep, w))
  /\ (forall montecarlo rep,
         fst (evaluate_project np_sqrt [c] tmar montecarlo mc_nsim mc_sigma
                mc_seed w) = Ok rep ->
         r_van rep == c
         /\ r_tir rep = None
         /\ (- (1 # 1000000000000) < c -> r_b_c rep = None)
         /\ (c <= - (1 # 1000000000000) ->
             exists z, r_b_c rep = Some z /\ z == 0)).
Proof.
  intros Hc.
  assert (Hirr : irr_default [c] = None).
  { apply irr_single; [reflexivity | exact Hc | reflexivity]. }
  destruct (benefit_cost_ratio_single c tmar) as (bc & Hbc & Hnone & Hzero).
  split.
  - eapply evaluate_project_returns; [apply npv_single_eq | exact Hbc].
  - intros montecarlo rep H.
    apply evaluate_project_inv in H as (Hv & Ht & Hb & _).
    rewrite npv_single_eq in Hv. rewrite Hirr in Ht. rewrite Hbc in Hb.
    injection Hv as Hv'. injection Hb as Hb'.
    rewrite <- Hv', <- Ht, <- Hb'.
    split; [field|]. split; [reflexivity|]. split; assumption.
Qed.

End EvaluatorClaims.

(** ** The multicriteria ranking *)

Lemma metric_or_zero_metric (p : project) (key : string) :
  metric_or_zero (p_metrics p) key == metric p key.
Proof.
  unfold metric_or_zero, metric.
  destruct (p_metrics p !! key) as [[|q]|]; try reflexivity.
  destruct (Qeq_bool q 0) eqn:E; [|reflexivity].
  apply Qeq_bool_iff in E. now rewrite E.
Qed.

Lemma np_max_spec (arr : list Q) :
  arr <> [] -> exists m, np_max arr = Ok m /\ is_max m arr.
Proof.
  destruct arr as [|x xs]; [congruence|]. intros _.
  eexists. split; [reflexivity|].
  assert (H : forall l m0,
             let m := fold_left (fun m y => if Qltb m y then y else m) l m0 in
             (m = m0 \/ List.In m l) /\ m0 <= m /\ List.Forall (fun y => y <= m) l).
  { induction l as [|y l IH]; intros m0; cbn [fold_left].
    - split; [now left|]. split; [apply Qle_refl | constructor].
    - destruct (IH (if Qltb m0 y then y else m0)) as (Hin & Hle & Hall).
      cbv zeta. set (m := fold_left _ l _) in *.
      destruct (Qltb m0 y) eqn:E.
      + apply Qltb_lt in E. split; [destruct Hin as [->|Hin]; right; simpl; auto|].
        split; [lra|]. constructor; [lra | exact Hall].
      + apply Qltb_ge in E. split; [destruct Hin as [->|Hin]; simpl; auto|].
        split; [lra|]. constructor; [lra | exact Hall]. }
  destruct (H xs x) as (Hin & Hle & Hall). split.
  - destruct Hin as [->|Hin]; simpl; auto.
  - constructor; assumption.
Qed.

Lemma np_min_spec (arr : list Q) :
  arr <> [] -> exists m, np_min arr = Ok m /\ is_min m arr.
Proof.
  destruct arr as [|x xs]; [congruence|]. intros _.
  eexists. split; [reflexivity|].
  assert (H : forall l m0,
             let m := fold_left (fun m y => if Qltb y m then y else m) l m0 in
             (m = m0 \/ List.In m l) /\ m <= m0 /\ List.Forall (fun y => m <= y) l).
  { induction l as [|y l IH]; intros m0; cbn [fold_left].
    - split; [now left|]. split; [apply Qle_refl | constructor].
    - destruct (IH (if Qltb y m0 then y else m0)) as (Hin & Hle & Hall).
      cbv zeta. set (m := fold_left _ l _) in *.
      destruct (Qltb y m0) eqn:E.
      + apply Qltb_lt in E. split; [destruct Hin as [->|Hin]; right; simpl; auto|].
        split; [lra|]. constructor; [lra | exact Hall].
      + apply Qltb_ge in E. split; [destruct Hin as [->|Hin]; simpl; auto|].
        split; [lra|]. constructor; [lra | exact Hall]. }
  destruct (H xs x) as (Hin & Hle & Hall). split.
  - destruct Hin as [->|Hin]; simpl; auto.
  - constructor; assumption.
Qed.

Lemma nth_map_indexed {A : Type} (g : A -> Q) (l : list A) (i : nat) (a : A) :
  nth_error l i = Some a -> nth i (map g l) 0 = g a.
Proof.
  intros H. apply nth_error_nth. now apply map_nth_error.
Qed.

(** [safe_normalize] on a non-empty array. *)
Lemma safe_normalize_spec (arr : list Q) :
  arr <> [] ->
  exists nv, safe_normalize arr = Ok nv
             /\ forall i x, nth_error arr i = Some x ->
                            minmax_normalized arr x (nth i nv 0).
Proof.
  intros Hne. unfold safe_normalize.
  destruct (np_max_spec arr Hne) as (mx & -> & Hmx).
  destruct (np_min_spec arr Hne) as (mn & -> & Hmn). cbn [rbind].
  destruct (Qeq_bool mx mn) eqn:E.
  - apply Qeq_bool_iff in E. eexists. split; [reflexivity|].
    intros i x Hx. rewrite (nth_map_indexed _ _ _ _ Hx).
    exists mn, mx. split; [exact Hmn|]. split; [exact Hmx|].
    split; [split; lra|].
    split; [intros _; reflexivity | intros Hc; contradiction].
  - apply Qeq_bool_ne in E. eexists. split; [reflexivity|].
    intros i x Hx. rewrite (nth_map_indexed _ _ _ _ Hx).
    exists mn, mx. split; [exact Hmn|]. split; [exact Hmx|].
    assert (Hin : List.In x arr) by (eapply nth_error_In; eauto).
    destruct Hmn as (Hmn_in & Hmn_le). destruct Hmx as (Hmx_in & Hmx_le).
    rewrite List.Forall_forall in Hmn_le, Hmx_le.
    pose proof (Hmn_le x Hin) as H1. pose proof (Hmx_le x Hin) as H2.
    pose proof (Hmn_le mx Hmx_in) as H3. cbv beta in H1, H2, H3.
    assert (Hd : 0 < mx - mn).
    { destruct (Qlt_le_dec mn mx); [lra|]. exfalso. apply E. lra. }
    split; [|split; [intros Hc; contradiction | reflexivity]].
    split.
    + apply Qle_shift_div_l; [exact Hd | lra].
    + apply Qle_shift_div_r; [exact Hd | lra].
Qed.

Lemma nth_error_enumerate {A : Type} (l : list A) (i : nat) (a : A) :
  nth_error l i = Some a -> nth_error (enumerate l) i = Some (i, a).
Proof.
  unfold enumerate.
  assert (H : forall k i, nth_error l i = Some a ->
                          nth_error (combine (seq k (length l)) l) i
                          = Some ((k + i)%nat, a)).
  { clear i. induction l as [|x l IH]; intros k [|i] Hi; try discriminate.
    - simpl in *. rewrite Nat.add_0_r. congruence.
    - simpl in *. rewrite (IH (S k) i Hi). f_equal. f_equal. lia. }
  apply (H 0%nat).
Qed.

Lemma enumerate_length {A : Type} (l : list A) : length (enumerate l) = length l.
Proof.
  unfold enumerate. rewrite length_combine, length_seq. lia.
Qed.

Lemma map_nth_seq (l : list Q) :
  map (fun i => nth i l 0) (seq 0 (length l)) = l.
Proof.
  induction l as [|x l IH]; [reflexivity|].
  cbn [length seq map nth]. f_equal.
  rewrite <- seq_shift, map_map. exact IH.
Qed.

Lemma map_enumerate_index {A B : Type} (g : nat -> B) (l : list A) :
  map (fun '(i, _) => g i) (enumerate l) = map g (seq 0 (length l)).
Proof.
  unfold enumerate. generalize 0%nat.
  induction l as [|x l IH]; intros k; [reflexivity|].
  cbn [length seq combine map]. f_equal. apply IH.
Qed.

Section Ranking.
Variables (projects : list project) (weights : gmap string Q).

Let vans := map (fun p => metric_or_zero (p_metrics p) "van") projects.
Let tirs := map (fun p => metric_or_zero (p_metrics p) "tir") projects.
Let bcs := map (fun p => metric_or_zero (p_metrics p) "b_c") projects.

Variables nv nt nb : list Q.

Let entries := score_entries projects weights vans tirs bcs nv nt nb.

Lemma score_entries_length : length entries = length projects.
Proof.
  unfold entries, score_entries. now rewrite length_map, enumerate_length.
Qed.

Lemma score_entries_nth (i : nat) (p : project) :
  nth_error projects i = Some p ->
  exists e, nth_error entries i = Some e
            /\ e_name e = match p_name p with
                          | Some s => s
                          | None => "proj_" +:+ pretty i
                          end
            /\ e_van e = metric_or_zero (p_metrics p) "van"
            /\ e_tir e = metric_or_zero (p_metrics p) "tir"
            /\ e_b_c e = metric_or_zero (p_metrics p) "b_c"
            /\ e_score e = weight weights "van" * nth i nv 0
                           + weight weights "tir" * nth i nt 0
                           + weight weights "b_c" * nth i nb 0.
Proof.
  intros Hp. unfold entries, score_entries.
  rewrite (map_nth_error _ _ _ (nth_error_enumerate projects i p Hp)).
  eexists. split; [reflexivity|]. cbn.
  unfold vans, tirs, bcs.
  rewrite !(nth_map_indexed _ _ _ _ Hp). auto 10.
Qed.

Lemma score_entries_metrics :
  map e_van entries = vans /\ map e_tir entries = tirs /\ map e_b_c entries = bcs.
Proof.
  assert (Hlen : forall g : project -> Q, length projects = length (map g projects))
    by (intros g; now rewrite length_map).
  unfold entries, score_entries. rewrite !map_map. repeat split.
  - transitivity (map (fun i => nth i vans 0) (seq 0 (length projects))).
    + rewrite <- map_enumerate_index. apply map_ext. now intros [i p].
    + unfold vans. rewrite (Hlen (fun p => metric_or_zero (p_metrics p) "van")).
      apply map_nth_seq.
  - transitivity (map (fun i => nth i tirs 0) (seq 0 (length projects))).
    + rewrite <- map_enumerate_index. apply map_ext. now intros [i p].
    + unfold tirs. rewrite (Hlen (fun p => metric_or_zero (p_metrics p) "tir")).
      apply map_nth_seq.
  - transitivity (map (fun i => nth i bcs 0) (seq 0 (length projects))).
    + rewrite <- map_enumerate_index. apply map_ext. now intros [i p].
    + unfold bcs. rewrite (Hlen (fun p => metric_or_zero (p_metrics p) "b_c")).
      apply map_nth_seq.
Qed.
End Ranking.

Lemma ranking_sort_perm (l : list entry) :
  Permutation l (stable_sort (fun y x => Qltb (e_score x) (e_score y)) l).
Proof. symmetry. apply stable_sort_perm. Qed.

Lemma ranking_sort_descending (l : list entry) :
  descending (stable_sort (fun y x => Qltb (e_score x) (e_score y)) l).
Proof.
  apply stable_sort_sorted.
  - intros a b c Hab Hbc. cbv beta in *. lra.
  - intros y x H. apply Qltb_lt in H. lra.
  - intros y x H. now apply Qltb_ge in H.
Qed.

Lemma ranking_sort_stable (l : list entry) (s : Q) :
  List.filter (fun e => Qeq_bool (e_score e) s)
    (stable_sort (fun y x => Qltb (e_score x) (e_score y)) l)
  = List.filter (fun e => Qeq_bool (e_score e) s) l.
Proof.
  apply stable_sort_filter. intros a b Ha Hb.
  apply Qeq_bool_iff in Ha. apply Qeq_bool_iff in Hb. apply Qltb_ge. lra.
Qed.

(** What [compare_projects] returns on a non-empty collection, for any
    weights dict (the default one when [None] is passed). *)
Lemma compare_projects_spec (projects : list project)
    (weights : option (gmap string Q)) :
  projects <> [] ->
  let w := match weights with Some w => w | None => default_weights end in
  exists entries out,
    compare_projects projects weights = Ok out
    /\ length entries = length projects
    /\ (forall i p, nth_error projects i = Some p ->
          exists e n_van n_tir n_bc,
            nth_error entries i = Some e
            /\ e_name e = match p_name p with
                          | Some s => s
                          | None => "proj_" +:+ pretty i
                          end
            /\ e_van e == metric p "van"
            /\ e_tir e == metric p "tir"
            /\ e_b_c e == metric p "b_c"
            /\ minmax_normalized (map e_van entries) (e_van e) n_van
            /\ minmax_normalized (map e_tir entries) (e_tir e) n_tir
            /\ minmax_normalized (map e_b_c entries) (e_b_c e) n_bc
            /\ e_score e == weight w "van" * n_van + weight w "tir" * n_tir
                            + weight w "b_c" * n_bc)
    /\ Permutation entries out
    /\ descending out
    /\ (forall s, List.filter (fun e => Qeq_bool (e_score e) s) out
                  = List.filter (fun e => Qeq_bool (e_score e) s) entries).
Proof.
  intros Hne w. unfold compare_projects. fold w.
  set (vans := map (fun p => metric_or_zero (p_metrics p) "van") projects).
  set (tirs := map (fun p => metric_or_zero (p_metrics p) "tir") projects).
  set (bcs := map (fun p => metric_or_zero (p_metrics p) "b_c") projects).
  assert (Hmap : forall g : project -> Q, map g projects <> []).
  { intros g. destruct projects; [congruence | discriminate]. }
  destruct (safe_normalize_spec vans (Hmap _)) as (nv & -> & Hnv).
  destruct (safe_normalize_spec tirs (Hmap _)) as (nt & -> & Hnt).
  destruct (safe_normalize_spec bcs (Hmap _)) as (nb & -> & Hnb).
  cbn [rbind].
  set (entries := score_entries projects w vans tirs bcs nv nt nb).
  exists entries. eexists. split; [reflexivity|].
  split; [apply score_entries_length|].
  split; [|split; [apply ranking_sort_perm|];
           split; [apply ranking_sort_descending | apply ranking_sort_stable]].
  intros i p Hp.
  destruct (score_entries_nth projects w nv nt nb i p Hp)
    as (e & He & Hname & Hvan & Htir & Hbc & Hscore).
  destruct (score_entries_metrics projects w nv nt nb) as (Mv & Mt & Mb).
  fold vans tirs bcs in Mv, Mt, Mb. fold entries in Mv, Mt, Mb, He.
  exists e, (nth i nv 0), (nth i nt 0), (nth i nb 0).
  split; [exact He|]. split; [exact Hname|].
  rewrite Hvan, Htir, Hbc, Mv, Mt, Mb, Hscore.
  split; [apply metric_or_zero_metric|].
  split; [apply metric_or_zero_metric|].
  split; [apply metric_or_zero_metric|].
  split; [apply Hnv; unfold vans;
          exact (map_nth_error (fun p => metric_or_zero (p_metrics p) "van") _ _ Hp)|].
  split; [apply Hnt; unfold tirs;
          exact (map_nth_error (fun p => metric_or_zero (p_metrics p) "tir") _ _ Hp)|].
  split; [apply Hnb; unfold bcs;
          exact (map_nth_error (fun p => metric_or_zero (p_metrics p) "b_c") _ _ Hp)|].
  reflexivity.
Qed.

Lemma weight_triple_lookup (wv wt wb : Q) :
  weight (weight_triple wv wt wb) "van" = wv
  /\ weight (weight_triple wv wt wb) "tir" = wt
  /\ weight (weight_triple wv wt wb) "b_c" = wb.
Proof.
  unfold weight, weight_triple. split; [reflexivity | split; reflexivity].
Qed.

(** C9 (as amended).  For every non-empty collection of projects and every
    weight triple, [compare_projects] returns a ranking [out] of the entries
    built in input order, where each entry records its project's metrics
    (0 for an absent or undefined one), each metric is min-max normalised
    within the collection to a number of [0, 1] (0 when the collection
    shares one value), the score is the sum of the three normalised metrics
    weighted by the triple as given, and [out] holds the same entries
    sorted by descending score, entries of equal score in input order. *)
Theorem compare_projects_ranking (projects : list project) (wv wt wb : Q) :
  projects <> [] ->
  exists entries out,
    compare_projects projects (Some (weight_triple wv wt wb)) = Ok out
    /\ length entries = length projects
    /\ (forall i p, nth_error projects i = Some p ->
          exists e n_van n_tir n_bc,
            nth_error entries i = Some e
            /\ e_name e = match p_name p with
                          | Some s => s
                          | None => "proj_" +:+ pretty i
                          end
            /\ e_van e == metric p "van"
            /\ e_tir e == metric p "tir"
            /\ e_b_c e == metric p "b_c"
            /\ minmax_normalized (map e_van entries) (e_van e) n_van
            /\ minmax_normalized (map e_tir entries) (e_tir e) n_tir
            /\ minmax_normalized (map e_b_c entries) (e_b_c e) n_bc
            /\ e_score e == wv * n_van + wt * n_tir + wb * n_bc)
    /\ Permutation entries out
    /\ descending out
    /\ (forall s, List.filter (fun e => Qeq_bool (e_score e) s) out
                  = List.filter (fun e => Qeq_bool (e_score e) s) entries).
Proof.
  intros Hne.
  destruct (compare_projects_spec projects (Some (weight_triple wv wt wb)) Hne)
    as (entries & out & H).
  cbv zeta in H.
  destruct (weight_triple_lookup wv wt wb) as (Hv & Ht & Hb).
  rewrite Hv, Ht, Hb in H.
  exists entries, out. exact H.
Qed.

(** ** The claims at concrete inputs *)

Lemma compare_projects_ranking_witness :
  [project_a; project_b] <> []
  /\ exists entries out,
      compare_projects [project_a; project_b]
        (Some (weight_triple (5 # 10) (3 # 10) (2 # 10))) = Ok out
      /\ Permutation entries out /\ descending out.
Proof.
  split; [discriminate|].
  destruct (compare_projects_ranking [project_a; project_b] (5 # 10) (3 # 10) (2 # 10))
    as (entries & out & H1 & _ & _ & H2 & H3 & _); [discriminate|].
  exists entries, out. auto.
Defined.

(** The claim C9 as stated fails on the empty collection: numpy's [max] of
    an empty array raises. *)
Lemma compare_projects_empty_raises :
  compare_projects [] None = Raise ValueError
  /\ compare_projects [] (Some (weight_triple (5 # 10) (3 # 10) (2 # 10)))
     = Raise ValueError.
Proof. split; reflexivity. Qed.



Lemma single_period_simulation_witness :
  (1 <= 3)%Z /\ valid_seed (Some 42%Z)
  /\ exists s w',
      @monte_carlo_npv lcg_source approx_sqrt [-1000] (1 # 10) 3 (15 # 100)
        (Some 42%Z) world0 = (Ok s, w')
      /\ Z.of_nat (length (s_samples s)) = 3%Z
      /\ List.Forall (fun v => has_value v (-1000)) (s_samples s).
Proof.
  assert (H1 : (1 <= 3)%Z) by lia.
  assert (H2 : valid_seed (Some 42%Z)) by (simpl; lia).
  split; [exact H1|]. split; [exact H2|].
  destruct (@single_period_simulation lcg_source approx_sqrt (-1000) (1 # 10)
              (15 # 100) 3 (Some 42%Z) world0 H1 H2)
    as (_ & s & w' & Hr & _ & Hl & Hs).
  exists s, w'. auto.
Defined.

(** The claim C8 as stated fails: a seed outside 32 unsigned bits makes
    [np.random.seed] raise, and with a negative trial count no value is
    collected and [np.percentile] raises on the empty sample. *)
Lemma single_period_simulation_fails :
  fst (@monte_carlo_npv lcg_source approx_sqrt [-1000] (1 # 10) 3 (15 # 100)
         (Some (-1)%Z) world0) = Raise ValueError
  /\ fst (@trials lcg_source [-1000] (1 # 10) (15 # 100) (Z.to_nat (-1)) [] world0)
     = Ok []
  /\ fst (@monte_carlo_npv lcg_source approx_sqrt [-1000] (1 # 10) (-1) (15 # 100)
            None world0) = Raise IndexError.
Proof. repeat split. Qed.

Lemma evaluate_single_period_witness :
  default_tol <= Qabs (-1000)
  /\ exists rep,
      @evaluate_project lcg_source approx_sqrt [-1000] (1 # 10) false 1000
        (15 # 100) None world0 = (Ok rep, world0).
Proof.
  assert (H : default_tol <= Qabs (-1000)) by (vm_compute; discriminate).
  split; [exact H|].
  exact (proj1 (@evaluate_single_period lcg_source approx_sqrt (-1000) (1 # 10) 1000
                  (15 # 100) None world0 H)).
Defined.

(** The claim C2 as stated fails: for the outlay [-1000] the benefit/cost
    ratio of the report is 0, not absent; and for a zero outlay the rate of
    return is the guess 0.1, not absent. *)
Lemma single_period_report_defined :
  (exists rep z,
      fst (@evaluate_project lcg_source approx_sqrt [-1000] (1 # 10) false 1000
             (15 # 100) None world0) = Ok rep
      /\ r_b_c rep = Some z /\ z == 0)
  /\ (exists rep,
         fst (@evaluate_project lcg_source approx_sqrt [0] (1 # 10) false 1000
                (15 # 100) None world0) = Ok rep
         /\ r_tir rep = Some (Finite default_guess)).
Proof.
  split.
  - do 2 eexists. split; [vm_compute; reflexivity|].
    split; [reflexivity | vm_compute; reflexivity].
  - eexists. split; [vm_compute; reflexivity | reflexivity].
Qed.




(** * Further properties of the engine *)

(** ** The discounting primitive *)

Lemma qpower_nat_succ (x : Q) (i : nat) :
  x ^ Z.of_nat (S i) == x * x ^ Z.of_nat i.
Proof.
  rewrite Nat2Z.inj_succ. unfold Z.succ.
  rewrite Z.add_comm, Qpower_plus' by lia. change (x ^ 1) with x. reflexivity.
Qed.

Lemma qpower_nat_mono (x y : Q) (i : nat) :
  0 <= y -> y <= x -> y ^ Z.of_nat i <= x ^ Z.of_nat i.
Proof.
  intros Hy Hxy. induction i as [|i IH].
  - change (y ^ Z.of_nat 0) with 1. change (x ^ Z.of_nat 0) with 1. lra.
  - rewrite !qpower_nat_succ.
    pose proof (Qpower_0_le y (Z.of_nat i) Hy) as Hp.
    apply Qle_trans with (x * y ^ Z.of_nat i).
    + apply Qmult_le_compat_r; assumption.
    + pose proof (Qmult_le_0_compat x (x ^ Z.of_nat i - y ^ Z.of_nat i)
                    ltac:(lra) ltac:(lra)).
      lra.
Qed.

(** On Python floats [npv] fails exactly at the rate -1 on a sequence with
    a period after t=0, and otherwise returns the discounted sum. *)
Lemma npv_outcome (rate : Q) (cf : list Q) :
  (1 + rate == 0 /\ (2 <= length cf)%nat -> npv rate cf = Raise ZeroDivisionError)
  /\ (~ (1 + rate == 0 /\ (2 <= length cf)%nat) ->
      exists v, npv rate cf = Ok v /\ v == disc (1 + rate) 0 cf).
Proof.
  split.
  - intros [Hz Hl]. destruct cf as [|c0 [|c1 rest]]; [simpl in Hl; lia ..|].
    unfold npv, enumerate. cbn [length seq combine rmap].
    unfold py_divide at 1. change ((1 + rate) ^ Z.of_nat 0) with 1.
    change (Qeq_bool 1 0) with false. cbn [rbind].
    unfold py_divide at 1. change ((1 + rate) ^ Z.of_nat 1) with (1 + rate).
    apply Qeq_bool_iff in Hz. rewrite Hz. reflexivity.
  - intros Hn. destruct (Qeq_dec (1 + rate) 0) as [Hz|Hz].
    + destruct cf as [|c0 [|c1 rest]].
      * exists 0. split; reflexivity.
      * rewrite npv_single_eq. eexists. split; [reflexivity|].
        simpl. change ((1 + rate) ^ 0) with 1. ring.
      * exfalso. apply Hn. split; [exact Hz | simpl; lia].
    + now apply npv_value.
Qed.

Lemma fadd_not_finite_l (x y : float64) : ~ is_finite x -> ~ is_finite (fadd x y).
Proof. destruct x, y; cbn; tauto. Qed.

Lemma fadd_not_finite_r (x y : float64) : ~ is_finite y -> ~ is_finite (fadd x y).
Proof. destruct x, y; cbn; tauto. Qed.

Lemma fold_fadd_not_finite (l : list float64) (acc : float64) :
  ~ is_finite acc -> ~ is_finite (fold_left fadd l acc).
Proof.
  revert acc. induction l as [|x l IH]; intros acc H; [exact H|].
  cbn [fold_left]. apply IH. now apply fadd_not_finite_l.
Qed.

Lemma signed_inf_not_finite (a : Q) : ~ is_finite (signed_inf a).
Proof. unfold signed_inf. destruct (Qltb 0 a), (Qltb a 0); cbn; tauto. Qed.

(** With a numpy operand the division by zero gives an infinity or nan,
    which the sum keeps: the result is not a number. *)
Lemma npv_np_outcome (rate : Q) (cf : list Q) :
  (1 + rate == 0 /\ (2 <= length cf)%nat -> ~ is_finite (npv_np rate cf))
  /\ (~ (1 + rate == 0 /\ (2 <= length cf)%nat) ->
      exists v, npv_np rate cf = Finite v /\ v == disc (1 + rate) 0 cf).
Proof.
  split.
  - intros [Hz Hl]. destruct cf as [|c0 [|c1 rest]]; [simpl in Hl; lia ..|].
    unfold npv_np, enumerate, fsum. cbn [length seq combine map fold_left].
    apply fold_fadd_not_finite, fadd_not_finite_r.
    unfold np_divide. change ((1 + rate) ^ Z.of_nat 1) with (1 + rate).
    apply Qeq_bool_iff in Hz. rewrite Hz. apply signed_inf_not_finite.
  - intros Hn. destruct (Qeq_dec (1 + rate) 0) as [Hz|Hz].
    + destruct cf as [|c0 [|c1 rest]].
      * exists 0. split; reflexivity.
      * rewrite npv_np_single. eexists. split; [reflexivity|].
        simpl. change ((1 + rate) ^ 0) with 1. ring.
      * exfalso. apply Hn. split; [exact Hz | simpl; lia].
    + now apply npv_np_value.
Qed.

(** X1.  At the rate -1 every cashflow after t=0 is divided by zero.  On a
    sequence with such a cashflow [npv] on Python floats raises
    [ZeroDivisionError], and the same expression with a numpy operand
    returns, without raising, a value that is not a number; on a sequence
    of at most one cashflow both return the sum of the cashflows. *)
Theorem npv_division_by_zero (rate : Q) (cf : list Q) :
  1 + rate == 0 ->
  ((2 <= length cf)%nat ->
   npv rate cf = Raise ZeroDivisionError /\ ~ is_finite (npv_np rate cf))
  /\ ((length cf <= 1)%nat ->
      exists v, npv rate cf = Ok v /\ npv_np rate cf = Finite v /\ v == qsum cf).
Proof.
  intros Hz. split.
  - intros Hl. split.
    + now apply (proj1 (npv_outcome rate cf)).
    + now apply (proj1 (npv_np_outcome rate cf)).
  - intros Hl. destruct cf as [|c0 [|c1 rest]]; [| |simpl in Hl; lia].
    + exists 0. split; [reflexivity|]. split; reflexivity.
    + exists (0 + c0 / 1). split; [reflexivity|]. split; [reflexivity|].
      unfold qsum. cbn [fold_left]. field.
Qed.

Lemma npv_division_by_zero_witness :
  npv (-1) [-1000; 600] = Raise ZeroDivisionError
  /\ ~ is_finite (npv_np (-1) [-1000; 600]).
Proof.
  apply (npv_division_by_zero (-1) [-1000; 600]); [reflexivity|].
  cbn [length]. lia.
Defined.

Lemma disc_rate_zero (l : list Q) (i : nat) : disc (1 + 0) i l == qsum l.
Proof.
  revert i. induction l as [|c l IH]; intros i; [reflexivity|].
  cbn [disc]. rewrite IH, qsum_cons.
  assert (E : (1 + 0) ^ Z.of_nat i == 1).
  { assert (E0 : 1 + 0 == 1) by ring. rewrite E0. apply Qpower_1. }
  rewrite E. field.
Qed.

(** X2.  At the rate 0 the net present value is the plain sum of the
    cashflows, whatever their number, on Python floats and with a numpy
    operand alike. *)
Theorem npv_at_rate_zero (cf : list Q) :
  (exists v, npv 0 cf = Ok v /\ v == qsum cf)
  /\ (exists v, npv_np 0 cf = Finite v /\ v == qsum cf).
Proof.
  assert (Hr : ~ 1 + 0 == 0) by (intros H; discriminate H).
  split.
  - destruct (npv_value 0 cf Hr) as (v & Hv & Hd).
    exists v. split; [exact Hv|]. now rewrite Hd, disc_rate_zero.
  - destruct (npv_np_value 0 cf Hr) as (v & Hv & Hd).
    exists v. split; [exact Hv|]. now rewrite Hd, disc_rate_zero.
Qed.

Lemma disc_linear (x a b : Q) (l1 l2 : list Q) (i : nat) :
  length l1 = length l2 ->
  disc x i (zip_with (fun c1 c2 => a * c1 + b * c2) l1 l2)
  == a * disc x i l1 + b * disc x i l2.
Proof.
  revert l2 i. induction l1 as [|c1 l1 IH]; intros [|c2 l2] i Hl;
    try discriminate; cbn [zip_with disc]; [ring|].
  rewrite IH by (simpl in Hl; lia). unfold Qdiv. ring.
Qed.

(** X3.  [npv] is linear in the cashflows: for two sequences of the same
    length that it values at a rate, it values their combination
    [a * cf1 + b * cf2], period by period, at [a * v1 + b * v2]; on Python
    floats and with a numpy operand alike. *)
Theorem npv_linear (rate a b : Q) (cf1 cf2 : list Q) (v1 v2 : Q) :
  length cf1 = length cf2 ->
  (npv rate cf1 = Ok v1 ->
   npv rate cf2 = Ok v2 ->
   exists v, npv rate (zip_with (fun c1 c2 => a * c1 + b * c2) cf1 cf2) = Ok v
             /\ v == a * v1 + b * v2)
  /\ (npv_np rate cf1 = Finite v1 ->
      npv_np rate cf2 = Finite v2 ->
      exists v, npv_np rate (zip_with (fun c1 c2 => a * c1 + b * c2) cf1 cf2)
                = Finite v
                /\ v == a * v1 + b * v2).
Proof.
  intros Hl. split.
  - intros H1 H2.
    destruct (npv_outcome rate cf1) as [Hr1 Ho1].
    destruct (npv_outcome rate cf2) as [_ Ho2].
    destruct (npv_outcome rate (zip_with (fun c1 c2 => a * c1 + b * c2) cf1 cf2))
      as [_ Ho].
    assert (Hn : ~ (1 + rate == 0 /\ (2 <= length cf1)%nat)).
    { intros Hd. rewrite (Hr1 Hd) in H1. discriminate. }
    destruct (Ho1 Hn) as (w1 & Hw1 & Hd1).
    destruct Ho2 as (w2 & Hw2 & Hd2); [now rewrite <- Hl|].
    destruct Ho as (v & Hv & Hd).
    { rewrite length_zip_with. intros [Hz Hlen]. apply Hn. split; [exact Hz | lia]. }
    exists v. split; [exact Hv|].
    assert (E1 : v1 = w1) by congruence. assert (E2 : v2 = w2) by congruence.
    rewrite E1, E2. now rewrite Hd, disc_linear, Hd1, Hd2.
  - intros H1 H2.
    destruct (npv_np_outcome rate cf1) as [Hr1 Ho1].
    destruct (npv_np_outcome rate cf2) as [_ Ho2].
    destruct (npv_np_outcome rate (zip_with (fun c1 c2 => a * c1 + b * c2) cf1 cf2))
      as [_ Ho].
    assert (Hn : ~ (1 + rate == 0 /\ (2 <= length cf1)%nat)).
    { intros Hd. apply (Hr1 Hd). rewrite H1. exact I. }
    destruct (Ho1 Hn) as (w1 & Hw1 & Hd1).
    destruct Ho2 as (w2 & Hw2 & Hd2); [now rewrite <- Hl|].
    destruct Ho as (v & Hv & Hd).
    { rewrite length_zip_with. intros [Hz Hlen]. apply Hn. split; [exact Hz | lia]. }
    exists v. split; [exact Hv|].
    assert (E1 : v1 = w1) by congruence. assert (E2 : v2 = w2) by congruence.
    rewrite E1, E2. now rewrite Hd, disc_linear, Hd1, Hd2.
Qed.

Lemma npv_linear_witness :
  exists v1 v2 v,
    npv (1 # 10) [-1000; 600; 600] = Ok v1
    /\ npv (1 # 10) [-500; 0; 700] = Ok v2
    /\ npv (1 # 10) (zip_with (fun c1 c2 => 2 * c1 + 3 * c2)
                       [-1000; 600; 600] [-500; 0; 700]) = Ok v
    /\ v == 2 * v1 + 3 * v2.
Proof.
  destruct (npv (1 # 10) [-1000; 600; 600]) as [v1|e] eqn:H1;
    [|vm_compute in H1; discriminate].
  destruct (npv (1 # 10) [-500; 0; 700]) as [v2|e] eqn:H2;
    [|vm_compute in H2; discriminate].
  destruct (proj1 (npv_linear (1 # 10) 2 3 [-1000; 600; 600] [-500; 0; 700] v1 v2
                     eq_refl) H1 H2) as (v & Hv & E).
  exists v1, v2, v. auto.
Defined.

Lemma disc_antitone (x y : Q) (l : list Q) (i : nat) :
  0 < y -> y <= x -> List.Forall (fun c => 0 <= c) l ->
  disc x i l <= disc y i l.
Proof.
  intros Hy Hxy H. revert i. induction H as [|c l Hc _ IH]; intros i; cbn [disc].
  - apply Qle_refl.
  - specialize (IH (S i)).
    pose proof (Qpower_0_lt y (Z.of_nat i) Hy) as Hpy.
    pose proof (qpower_nat_mono x y i ltac:(lra) Hxy) as Hm.
    assert (c / x ^ Z.of_nat i <= c / y ^ Z.of_nat i).
    { apply Qle_shift_div_r; [lra|].
      assert (E : c / y ^ Z.of_nat i * x ^ Z.of_nat i
                  == c * x ^ Z.of_nat i / y ^ Z.of_nat i) by (field; lra).
      rewrite E. apply Qle_shift_div_l; [exact Hpy|].
      pose proof (Qmult_le_0_compat c (x ^ Z.of_nat i - y ^ Z.of_nat i)
                    Hc ltac:(lra)).
      lra. }
    lra.
Qed.

(** X4.  For a sequence whose cashflows after the outlay are all
    non-negative, the net present value does not increase with the rate, on
    rates above -1; on Python floats and with a numpy operand alike. *)
Theorem npv_decreasing_in_rate (c0 : Q) (later : list Q) (r1 r2 v1 v2 : Q) :
  List.Forall (fun c => 0 <= c) later ->
  -1 < r1 -> r1 <= r2 ->
  (npv r1 (c0 :: later) = Ok v1 -> npv r2 (c0 :: later) = Ok v2 -> v2 <= v1)
  /\ (npv_np r1 (c0 :: later) = Finite v1 ->
      npv_np r2 (c0 :: later) = Finite v2 -> v2 <= v1).
Proof.
  intros Hl Hr1 Hr12.
  pose proof (disc_antitone (1 + r2) (1 + r1) later 1 ltac:(lra) ltac:(lra) Hl).
  split; intros H1 H2.
  - destruct (npv_value r1 (c0 :: later)) as (w1 & Hw1 & Hd1); [lra|].
    destruct (npv_value r2 (c0 :: later)) as (w2 & Hw2 & Hd2); [lra|].
    assert (E1 : v1 = w1) by congruence. assert (E2 : v2 = w2) by congruence.
    rewrite E1, E2, Hd1, Hd2, !disc_head. lra.
  - destruct (npv_np_value r1 (c0 :: later)) as (w1 & Hw1 & Hd1); [lra|].
    destruct (npv_np_value r2 (c0 :: later)) as (w2 & Hw2 & Hd2); [lra|].
    assert (E1 : v1 = w1) by congruence. assert (E2 : v2 = w2) by congruence.
    rewrite E1, E2, Hd1, Hd2, !disc_head. lra.
Qed.

Lemma npv_decreasing_in_rate_witness :
  exists v1 v2, npv (1 # 10) [-1000; 600; 600] = Ok v1
                /\ npv (2 # 10) [-1000; 600; 600] = Ok v2
                /\ v2 <= v1.
Proof.
  destruct (npv (1 # 10) [-1000; 600; 600]) as [v1|e] eqn:H1;
    [|vm_compute in H1; discriminate].
  destruct (npv (2 # 10) [-1000; 600; 600]) as [v2|e] eqn:H2;
    [|vm_compute in H2; discriminate].
  exists v1, v2. split; [reflexivity|]. split; [reflexivity|].
  refine (proj1 (npv_decreasing_in_rate (-1000) [600; 600] (1 # 10) (2 # 10) v1 v2
                   _ _ _) H1 H2).
  - repeat constructor; discriminate.
  - reflexivity.
  - discriminate.
Defined.

(** ** The benefit/cost ratio *)

Lemma disc_nonneg_le (x : Q) (l : list Q) (i : nat) :
  0 < x -> List.Forall (fun c => 0 <= c) l -> 0 <= disc x i l.
Proof.
  intros Hx H. revert i. induction H as [|c l Hc _ IH]; intros i; cbn [disc].
  - apply Qle_refl.
  - specialize (IH (S i)).
    assert (0 <= c / x ^ Z.of_nat i).
    { apply Qle_shift_div_l; [apply Qpower_0_lt, Hx | lra]. }
    lra.
Qed.

Lemma benefits_nonneg (cf : list Q) :
  List.Forall (fun c => 0 <= c) (map (fun c => if Qltb 0 c then c else 0) cf).
Proof.
  apply List.Forall_forall. intros y Hy. apply in_map_iff in Hy as (c & <- & _).
  destruct (Qltb 0 c) eqn:E; [apply Qltb_lt in E; lra | apply Qle_refl].
Qed.

Lemma costs_nonneg (cf : list Q) :
  List.Forall (fun c => 0 <= c) (map (fun c => if Qltb c 0 then - c else 0) cf).
Proof.
  apply List.Forall_forall. intros y Hy. apply in_map_iff in Hy as (c & <- & _).
  destruct (Qltb c 0) eqn:E; [apply Qltb_lt in E; lra | apply Qle_refl].
Qed.

(** What [benefit_cost_ratio] computes at a rate other than -1. *)
Lemma benefit_cost_ratio_value (cf : list Q) (rate : Q) :
  ~ 1 + rate == 0 ->
  exists pv_b pv_c,
    pv_b == disc (1 + rate) 0 (map (fun c => if Qltb 0 c then c else 0) cf)
    /\ pv_c == disc (1 + rate) 0 (map (fun c => if Qltb c 0 then - c else 0) cf)
    /\ benefit_cost_ratio cf rate
       = if Qltb (Qabs pv_c) (1 # 1000000000000) then Ok None
         else Ok (Some (pv_b / pv_c)).
Proof.
  intros Hr. unfold benefit_cost_ratio.
  destruct (npv_value rate (map (fun c => if Qltb 0 c then c else 0) cf) Hr)
    as (pv_b & -> & Hb).
  destruct (npv_value rate (map (fun c => if Qltb c 0 then - c else 0) cf) Hr)
    as (pv_c & -> & Hc).
  cbn [rbind]. exists pv_b, pv_c. auto.
Qed.

Lemma disc_zeros (x : Q) (l : list Q) (i : nat) :
  List.Forall (fun c => c == 0) l -> disc x i l == 0.
Proof.
  intros H. revert i. induction H as [|c l Hc _ IH]; intros i; cbn [disc]; [reflexivity|].
  rewrite IH, Hc. unfold Qdiv. ring.
Qed.

(** X6.  At a rate above -1 the ratio is undefined for a sequence without
    any negative cashflow, and is defined, and non-negative, for a sequence
    whose outlay is a cost of at least 1e-12. *)
Theorem benefit_cost_ratio_defined (cf : list Q) (rate : Q) :
  0 < 1 + rate ->
  (List.Forall (fun c => 0 <= c) cf -> benefit_cost_ratio cf rate = Ok None)
  /\ (forall c0 later, cf = c0 :: later -> c0 <= - (1 # 1000000000000) ->
      exists bc, benefit_cost_ratio cf rate = Ok (Some bc) /\ 0 <= bc).
Proof.
  intros Hr.
  destruct (benefit_cost_ratio_value cf rate) as (pv_b & pv_c & Hb & Hc & E); [lra|].
  pose proof (disc_nonneg_le (1 + rate) _ 0 Hr (benefits_nonneg cf)) as Hb0.
  rewrite <- Hb in Hb0.
  split.
  - intros Hall. rewrite E.
    assert (Hz : pv_c == 0).
    { rewrite Hc. apply disc_zeros. apply List.Forall_forall. intros y Hy.
      apply in_map_iff in Hy as (c & <- & Hin).
      rewrite List.Forall_forall in Hall. specialize (Hall c Hin). cbv beta in Hall.
      destruct (Qltb c 0) eqn:El; [apply Qltb_lt in El; lra | reflexivity]. }
    assert (Qltb (Qabs pv_c) (1 # 1000000000000) = true) as ->; [|reflexivity].
    apply Qltb_lt. rewrite Hz. reflexivity.
  - intros c0 later -> Hc0.
    assert (Hlt : Qltb c0 0 = true) by (apply Qltb_lt; lra).
    cbn [map] in Hc. rewrite Hlt, disc_head in Hc.
    pose proof (disc_nonneg_le (1 + rate) _ 1 Hr (costs_nonneg later)) as Hrest.
    assert (Hge : 1 # 1000000000000 <= pv_c) by lra.
    rewrite E.
    assert (Qltb (Qabs pv_c) (1 # 1000000000000) = false) as ->.
    { apply Qltb_ge. rewrite Qabs_pos by lra. exact Hge. }
    eexists. split; [reflexivity|]. apply Qle_shift_div_l; lra.
Qed.

Lemma benefit_cost_ratio_defined_witness :
  benefit_cost_ratio [1000; 200; 300] (1 # 10) = Ok None
  /\ exists bc, benefit_cost_ratio [-1000; 600; 600] (1 # 10) = Ok (Some bc) /\ 0 <= bc.
Proof.
  split.
  - apply (benefit_cost_ratio_defined [1000; 200; 300] (1 # 10) eq_refl).
    repeat constructor; discriminate.
  - apply (proj2 (benefit_cost_ratio_defined [-1000; 600; 600] (1 # 10) eq_refl)
             (-1000) [600; 600] eq_refl).
    discriminate.
Defined.

(** ** The cashflow series *)

(** X9.  With a zero gradient both series are the constant flow: the form
    builds, term for term, the cashflows of the flow type [Constante]. *)
Theorem zero_gradient_is_constant (c0 flow : Q) (n : Z) :
  Forall2 Qeq (form_cashflows c0 n (GradienteAritmetico flow 0))
              (form_cashflows c0 n (Constante flow))
  /\ Forall2 Qeq (form_cashflows c0 n (GradienteGeometrico flow 0))
                 (form_cashflows c0 n (Constante flow)).
Proof.
  unfold form_cashflows, gradient_arithmetic, gradient_geometric. cbn [app].
  split; (constructor; [reflexivity|]); generalize 0%nat;
    induction (Z.to_nat n) as [|m IH]; intros k; cbn [seq map repeat];
    try constructor; try apply IH.
  - ring.
  - assert (E : 1 + 0 == 1) by ring. rewrite E, Qpower_1. ring.
Qed.

(** The telescoping sum behind the annuity formula. *)
Lemma disc_repeat (x flow : Q) (n i : nat) :
  ~ x == 0 ->
  (x - 1) * disc x i (repeat flow n)
  == flow * (x / x ^ Z.of_nat i - x / x ^ Z.of_nat (i + n)).
Proof.
  intros Hx. revert i. induction n as [|n IH]; intros i; cbn [repeat disc].
  - rewrite Nat.add_0_r. ring.
  - pose proof (Qpower_not_0 x (Z.of_nat i) Hx) as Hi.
    pose proof (Qpower_not_0 x (Z.of_nat (S i)) Hx) as HSi.
    pose proof (Qpower_not_0 x (Z.of_nat (S i + n)) Hx) as Hn.
    rewrite Qmult_plus_distr_r, (IH (S i)).
    replace (i + S n)%nat with (S i + n)%nat by lia.
    assert (E : x / x ^ Z.of_nat (S i) == 1 / x ^ Z.of_nat i).
    { rewrite qpower_nat_succ. field. split; assumption. }
    rewrite E. field. split; assumption.
Qed.

(** The annuity formula for the discounted sum of an outlay followed by
    [n] equal flows. *)
Lemma disc_constant_flow (c0 flow rate : Q) (n : nat) :
  ~ rate == 0 -> ~ 1 + rate == 0 ->
  disc (1 + rate) 0 (c0 :: repeat flow n)
  == c0 + flow * (1 - / (1 + rate) ^ Z.of_nat n) / rate.
Proof.
  intros Hr Hx. rewrite disc_head.
  pose proof (disc_repeat (1 + rate) flow n 1 Hx) as Ht.
  pose proof (Qpower_not_0 (1 + rate) (Z.of_nat n) Hx) as Hn.
  replace (1 + n)%nat with (S n) in Ht by lia.
  change ((1 + rate) ^ Z.of_nat 1) with (1 + rate) in Ht.
  rewrite (qpower_nat_succ (1 + rate) n) in Ht.
  assert (E : disc (1 + rate) 1 (repeat flow n)
              == (1 + rate - 1) * disc (1 + rate) 1 (repeat flow n) / rate)
    by (field; exact Hr).
  rewrite E, Ht.
  clear Ht E. revert Hn. generalize ((1 + rate) ^ Z.of_nat n).
  intros p Hp. field. repeat split; assumption.
Qed.

(** X10.  For the constant flow of the form, an outlay [c0] followed by [n]
    equal flows, [npv] at a rate other than 0 and -1 agrees with the annuity
    formula [c0 + flow * (1 - (1 + rate)^-n) / rate], on Python floats and
    with a numpy operand alike. *)
Theorem npv_constant_flow (c0 flow rate : Q) (n : Z) :
  ~ rate == 0 -> ~ 1 + rate == 0 ->
  (exists v, npv rate (form_cashflows c0 n (Constante flow)) = Ok v
             /\ v == c0 + flow * (1 - / (1 + rate) ^ Z.of_nat (Z.to_nat n)) / rate)
  /\ (exists v, npv_np rate (form_cashflows c0 n (Constante flow)) = Finite v
                /\ v == c0
                        + flow * (1 - / (1 + rate) ^ Z.of_nat (Z.to_nat n)) / rate).
Proof.
  intros Hr Hx. cbn [form_cashflows app]. split.
  - destruct (npv_value rate (c0 :: repeat flow (Z.to_nat n)) Hx) as (v & Hv & Hd).
    exists v. split; [exact Hv|]. rewrite Hd. now apply disc_constant_flow.
  - destruct (npv_np_value rate (c0 :: repeat flow (Z.to_nat n)) Hx)
      as (v & Hv & Hd).
    exists v. split; [exact Hv|]. rewrite Hd. now apply disc_constant_flow.
Qed.

Lemma npv_constant_flow_witness :
  exists v, npv (12 # 100) (form_cashflows (-10000) 5 (Constante 3000)) = Ok v
            /\ v == -10000 + 3000 * (1 - / (1 + (12 # 100)) ^ 5) / (12 # 100).
Proof.
  apply (npv_constant_flow (-10000) 3000 (12 # 100) 5); discriminate.
Defined.

Lemma disc_geometric (x f0 : Q) (n i k : nat) :
  ~ x == 0 ->
  disc x (S (i + k)) (map (fun j => f0 * x ^ Z.of_nat j) (seq k n))
  == inject_nat n * (f0 / (x * x ^ Z.of_nat i)).
Proof.
  intros Hx. revert k. induction n as [|n IH]; intros k; cbn [seq map disc].
  - unfold inject_nat. change (inject_Z (Z.of_nat 0)) with 0. ring.
  - pose proof (Qpower_not_0 x (Z.of_nat i) Hx) as Hi.
    pose proof (Qpower_not_0 x (Z.of_nat k) Hx) as Hk.
    replace (S (S (i + k))) with (S (i + S k)) by lia. rewrite (IH (S k)).
    assert (E : x ^ Z.of_nat (S (i + k)) == x * x ^ Z.of_nat i * x ^ Z.of_nat k).
    { rewrite qpower_nat_succ, Nat2Z.inj_add, Qpower_plus by exact Hx. ring. }
    rewrite E. unfold inject_nat. rewrite Nat2Z.inj_succ. unfold Z.succ.
    rewrite inject_Z_plus. field. repeat split; assumption.
Qed.

Lemma disc_geometric_flow (c0 f0 g : Q) (n : nat) :
  ~ 1 + g == 0 ->
  disc (1 + g) 0 (c0 :: map (fun i => f0 * (1 + g) ^ Z.of_nat i) (seq 0 n))
  == c0 + inject_nat n * (f0 / (1 + g)).
Proof.
  intros Hx. rewrite disc_head.
  pose proof (disc_geometric (1 + g) f0 n 0 0 Hx) as Hs.
  cbn [Nat.add] in Hs. rewrite Hs. change ((1 + g) ^ Z.of_nat 0) with 1.
  field. exact Hx.
Qed.

(** X11.  For the geometric flow of the form, valued at a rate equal to its
    growth, every later flow discounts to [f0 / (1 + g)]: the net present
    value is [c0 + n * f0 / (1 + g)], on Python floats and with a numpy
    operand alike. *)
Theorem npv_geometric_at_growth_rate (c0 f0 g : Q) (n : Z) :
  ~ 1 + g == 0 ->
  (exists v, npv g (form_cashflows c0 n (GradienteGeometrico f0 g)) = Ok v
             /\ v == c0 + inject_nat (Z.to_nat n) * (f0 / (1 + g)))
  /\ (exists v, npv_np g (form_cashflows c0 n (GradienteGeometrico f0 g)) = Finite v
                /\ v == c0 + inject_nat (Z.to_nat n) * (f0 / (1 + g))).
Proof.
  intros Hx. cbn [form_cashflows app]. unfold gradient_geometric. split.
  - destruct (npv_value g (c0 :: map (fun i => f0 * (1 + g) ^ Z.of_nat i)
                                   (seq 0 (Z.to_nat n))) Hx) as (v & Hv & Hd).
    exists v. split; [exact Hv|]. rewrite Hd. now apply disc_geometric_flow.
  - destruct (npv_np_value g (c0 :: map (fun i => f0 * (1 + g) ^ Z.of_nat i)
                                      (seq 0 (Z.to_nat n))) Hx) as (v & Hv & Hd).
    exists v. split; [exact Hv|]. rewrite Hd. now apply disc_geometric_flow.
Qed.

Lemma npv_geometric_at_growth_rate_witness :
  exists v, npv (5 # 100)
              (form_cashflows (-10000) 5 (GradienteGeometrico 2000 (5 # 100))) = Ok v
            /\ v == -10000 + inject_nat 5 * (2000 / (1 + (5 # 100))).
Proof.
  apply (npv_geometric_at_growth_rate (-10000) 2000 (5 # 100) 5). discriminate.
Defined.

(** ** The rate of return *)




Lemma Forall2_middle {A B : Type} (R : A -> B -> Prop) (l1 l2 : list A)
    (v1 v2 : list B) (x : A) (v : B) :
  length l1 = length v1 ->
  Forall2 R (l1 ++ x :: l2) (v1 ++ v :: v2) ->
  Forall2 R l1 v1 /\ R x v /\ Forall2 R l2 v2.
Proof.
  revert v1. induction l1 as [|y l1 IH]; intros [|w v1] Hl H; try discriminate.
  - cbn [app] in H. inversion H as [|? ? ? ? Hx Hrest]; subst.
    repeat split; [constructor | assumption ..].
  - cbn [app] in H. inversion H as [|? ? ? ? Hx Hrest]; subst.
    destruct (IH v1) as (G1 & G2 & G3); [simpl in Hl; lia | assumption |].
    repeat split; [constructor|..]; assumption.
Qed.

Lemma adjacent_middle {A : Type} (P : A -> A -> Prop) (l1 l2 : list A) (a b : A) :
  adjacent P (l1 ++ a :: b :: l2) -> P a b.
Proof.
  induction l1 as [|x l1 IH]; cbn [app].
  - intros [H _]. exact H.
  - intros H. apply IH. destruct l1; cbn [app] in *; apply H.
Qed.

(** Neighbours of the scan grid are in increasing order and at most 0.05
    apart (the widest cell joins the two ranges, from -0.1 to -0.05). *)
Lemma lows_cells : adjacent (fun x y => x <= y /\ y - x <= 5 # 100) lows.
Proof.
  assert (H : forall l,
             (fix chk (l : list Q) : bool :=
                match l with
                | x :: ((y :: _) as l') =>
                    Qle_bool x y && Qle_bool (y - x) (5 # 100) && chk l'
                | _ => true
                end) l = true ->
             adjacent (fun x y => x <= y /\ y - x <= 5 # 100) l).
  { induction l as [|x l IH]; [intros _; exact I|].
    destruct l as [|y l]; [intros _; exact I|].
    intros H. apply andb_true_iff in H as [H1 H3].
    apply andb_true_iff in H1 as [H1 H2].
    split; [split; now apply Qle_bool_iff | exact (IH H3)]. }
  apply H. vm_compute. reflexivity.
Qed.

(** When the scan returns a grid point, it is the first one, the last
    excepted, whose value is zero. *)
Lemma scan_first_zero (ls vals : list Q) (sc : list (Q * Q)) (x : Q) :
  scan ls (map Finite vals) sc = ZeroAt x ->
  exists ls1 ls2 vs1 v vs2,
    ls = ls1 ++ x :: ls2 /\ ls2 <> []
    /\ vals = vs1 ++ v :: vs2
    /\ length ls1 = length vs1
    /\ v == 0
    /\ List.Forall (fun w => ~ w == 0) vs1.
Proof.
  revert vals sc. induction ls as [|a0 ls IH]; intros vals sc H; [discriminate|].
  destruct ls as [|b0 ls]; [discriminate|].
  destruct vals as [|v0 vals]; [discriminate|].
  destruct vals as [|v1 vals]; [discriminate|].
  rewrite scan_step_finite in H. destruct (Qeq_bool v0 0) eqn:Ez.
  - injection H as <-. apply Qeq_bool_iff in Ez.
    exists [], (b0 :: ls), [], v0, (v1 :: vals). cbn [app length].
    repeat split; try assumption; [discriminate | constructor].
  - apply Qeq_bool_ne in Ez.
    assert (Hrec : exists sc', scan (b0 :: ls) (map Finite (v1 :: vals)) sc'
                               = ZeroAt x).
    { destruct (Qltb (v0 * v1) 0); eauto. }
    destruct Hrec as (sc' & Hrec).
    destruct (IH _ _ Hrec) as (ls1 & ls2 & vs1 & v & vs2 & E1 & Hne & E2 & Hl & Hv & Hnz).
    exists (a0 :: ls1), ls2, (v0 :: vs1), v, vs2. cbn [app length].
    rewrite E1, E2. repeat split; try assumption; [now rewrite Hl | now constructor].
Qed.

(** When the scan ends with brackets, no value it tested, that is none but
    possibly the last, is zero. *)
Lemma scan_brackets_nonzero (ls vals : list Q) (sc out : list (Q * Q)) :
  length ls = length vals ->
  scan ls (map Finite vals) sc = Brackets out ->
  List.Forall (fun v => ~ v == 0) (removelast vals).
Proof.
  revert vals sc. induction ls as [|a0 ls IH]; intros vals sc Hl H.
  - destruct vals; [constructor | discriminate].
  - destruct ls as [|b0 ls].
    + destruct vals as [|v0 [|v1 vals]]; [discriminate | constructor | discriminate].
    + destruct vals as [|v0 vals]; [discriminate|].
      destruct vals as [|v1 vals]; [discriminate|].
      rewrite scan_step_finite in H. destruct (Qeq_bool v0 0) eqn:Ez; [discriminate|].
      apply Qeq_bool_ne in Ez.
      change (removelast (v0 :: v1 :: vals)) with (v0 :: removelast (v1 :: vals)).
      constructor; [exact Ez|].
      assert (Hl' : length (b0 :: ls) = length (v1 :: vals))
        by (simpl in Hl |- *; lia).
      destruct (Qltb (v0 * v1) 0); exact (IH _ _ Hl' H).
Qed.

Lemma Forall2_removelast {A B : Type} (R : A -> B -> Prop) (l : list A)
    (v : list B) :
  Forall2 R l v -> Forall2 R (removelast l) (removelast v).
Proof.
  induction 1 as [|x w l v Hxw Hrest IH]; [constructor|].
  destruct Hrest as [|y wy l v Hy Hrest]; [constructor|].
  change (removelast (x :: y :: l)) with (x :: removelast (y :: l)).
  change (removelast (w :: wy :: v)) with (w :: removelast (wy :: v)).
  constructor; [exact Hxw | exact IH].
Qed.

Lemma Forall2_transfer {A B : Type} (R : A -> B -> Prop) (P : B -> Prop)
    (l : list A) (v : list B) :
  Forall2 R l v -> List.Forall P v ->
  List.Forall (fun x => exists w, R x w /\ P w) l.
Proof.
  induction 1 as [|x w l v Hxw _ IH]; intros HP; [constructor|].
  inversion HP; subst. constructor; eauto.
Qed.

Lemma adjacent_transfer {A B : Type} (R : A -> B -> Prop) (P : B -> B -> Prop)
    (l : list A) (v : list B) :
  Forall2 R l v -> adjacent P v ->
  adjacent (fun x y => exists wx wy, R x wx /\ R y wy /\ P wx wy) l.
Proof.
  induction 1 as [|x w l v Hxw Hrest IH]; intros HP; [exact I|].
  destruct Hrest as [|y wy l v Hy Hrest]; [exact I|].
  destruct HP as [Hp HP]. split; [eauto 6|]. apply IH. exact HP.
Qed.

(** X14.  When the Newton loop ends without a rate and the fallback
    answers, the answer is a number of one of two kinds.  Either it is the
    first grid point, the last one excepted, whose value is exactly zero:
    the zero test ends the scan at once, so such a point is returned even
    when the value changes sign across a cell before it.  Or no grid point
    but possibly the last has the value zero, and the answer lies inside
    the leftmost grid cell across which the value changes sign. *)
Theorem irr_fallback_answer (cf : list Q) (guess tol : Q) (maxiter : Z)
    (x : float64) :
  newton cf tol (Z.to_nat maxiter) (Finite guess) = None ->
  irr cf guess tol maxiter = Some x ->
  exists r before after,
    x = Finite r
    /\ List.Forall (fun y => exists v, f cf (Finite y) = Finite v /\ ~ v == 0) before
    /\ ((exists v, lows = before ++ r :: after /\ after <> []
                   /\ f cf (Finite r) = Finite v /\ v == 0)
        \/ (exists a b va vb,
               lows = before ++ a :: b :: after
               /\ f cf (Finite a) = Finite va /\ f cf (Finite b) = Finite vb
               /\ va * vb < 0
               /\ a <= r <= b
               /\ List.Forall
                    (fun y => exists v, f cf (Finite y) = Finite v /\ ~ v == 0)
                    (removelast lows)
               /\ adjacent (fun y z => exists vy vz,
                                f cf (Finite y) = Finite vy
                                /\ f cf (Finite z) = Finite vz
                                /\ ~ vy * vz < 0)
                           (before ++ [a]))).
Proof.
  intros Hn H. unfold irr in H. rewrite Hn in H.
  destruct (fallback cf tol) as [r|] eqn:Ef; [|discriminate].
  injection H as <-. exists r.
  revert Ef. unfold fallback.
  generalize lows_cells. generalize lows_in_domain. generalize lows.
  generalize 100%nat. intros n ls Hdom Hcells.
  destruct (grid_values cf ls Hdom) as (vals & -> & Er). cbv zeta.
  assert (Hlen : length ls = length vals) by (eapply Forall2_length; exact Er).
  destruct (scan ls (map Finite vals) []) as [z|[|[a b] out]] eqn:Es;
    [| discriminate |]; intros H; injection H as <-.
  - destruct (scan_first_zero _ _ _ _ Es)
      as (ls1 & ls2 & vs1 & v & vs2 & E1 & Hne & E2 & Hl & Hv & Hnz).
    rewrite E1, E2 in Er.
    destruct (Forall2_middle _ _ _ _ _ _ _ Hl Er) as (Hbefore & Hx & _).
    exists ls1, ls2. split; [reflexivity|].
    split; [exact (Forall2_transfer _ _ _ _ Hbefore Hnz)|].
    left. exists v. auto.
  - pose proof (scan_brackets_nonzero _ _ _ _ Hlen Es) as Hall.
    pose proof (Forall2_transfer _ _ _ _ (Forall2_removelast _ _ _ Er) Hall) as Hnone.
    destruct (scan_first_bracket _ _ _ _ _ Es)
      as (ls1 & ls2 & vs1 & va & vb & vs2 & E1 & E2 & Hl & Hsign & Hnz & Hadj).
    rewrite E1, E2 in Er.
    destruct (Forall2_middle _ _ _ _ _ _ _ Hl Er) as (Hbefore & Hfa & Hrest).
    inversion Hrest as [|? ? ? ? Hfb _]; subst.
    destruct (adjacent_middle _ _ _ _ _ Hcells) as [Hab _].
    exists ls1, ls2. split; [reflexivity|]. split.
    + apply List.Forall_app in Hnz as [Hnz _].
      exact (Forall2_transfer _ _ _ _ Hbefore Hnz).
    + right. exists a, b, va, vb.
      split; [reflexivity|]. split; [exact Hfa|]. split; [exact Hfb|].
      split; [exact Hsign|].
      split; [apply bisect_range; split; lra|].
      split; [exact Hnone|].
      apply (adjacent_transfer (fun y v => f cf (Finite y) = Finite v) _ _
               (vs1 ++ [va])); [|exact Hadj].
      apply Forall2_app; [exact Hbefore | constructor; [exact Hfa | constructor]].
Qed.

Lemma irr_fallback_answer_witness :
  newton [40; -58; 19] default_tol (Z.to_nat 0) (Finite default_guess) = None
  /\ exists r before,
      irr [40; -58; 19] default_guess default_tol 0 = Some (Finite r)
      /\ r == - (5 # 100)
      /\ List.Forall (fun y => exists v, f [40; -58; 19] (Finite y) = Finite v
                                         /\ ~ v == 0) before
      /\ exists va vb,
          f [40; -58; 19] (Finite (nth 110 lows 0)) = Finite va
          /\ f [40; -58; 19] (Finite (nth 111 lows 0)) = Finite vb
          /\ va * vb < 0
          /\ nth 111 lows 0 < r.
Proof.
  assert (Hn : newton [40; -58; 19] default_tol (Z.to_nat 0) (Finite default_guess)
               = None) by reflexivity.
  split; [exact Hn|].
  destruct (irr [40; -58; 19] default_guess default_tol 0) as [x|] eqn:H;
    [|vm_compute in H; discriminate].
  destruct (irr_fallback_answer [40; -58; 19] default_guess default_tol 0 x Hn H)
    as (r & before & after & -> & Hb & _).
  exists r, before. split; [reflexivity|].
  assert (Hr : r == - (5 # 100)).
  { revert H. vm_compute. intros H. injection H as <-. reflexivity. }
  split; [exact Hr|]. split; [exact Hb|].
  do 2 eexists. split; [vm_compute; reflexivity|]. split; [vm_compute; reflexivity|].
  split; [vm_compute; reflexivity|].
  rewrite Hr. vm_compute. reflexivity.
Defined.

(** ** The simulator *)

Section SimulatorProperties.
Context `{RS : RandomSource} (np_sqrt : Q -> Q).

Lemma successive_draws_empty (g : rng) (sigma : Q) (n : nat) :
  successive_draws g sigma 0 n = repeat [] n.
Proof.
  revert g. induction n as [|n IH]; intros g; cbn [successive_draws repeat];
    [reflexivity|].
  pose proof (normal_length g 1 sigma 0) as Hl.
  destruct (normal g 1 sigma 0) as [draws g']. cbn [fst] in Hl.
  destruct draws; [|discriminate]. now rewrite IH.
Qed.

(** The trial loop collects, in order, the value of one scenario per
    vector of draws of the sampler. *)
Lemma trials_samples (c0 : Q) (later : list Q) (rate sigma : Q) (n : nat)
    (sims out : list float64) (w w' : world) :
  trials (c0 :: later) rate sigma n sims w = (Ok out, w') ->
  out = sims ++ map (scenario_value rate c0 later)
                    (successive_draws (np_state w) sigma (length later) n).
Proof.
  revert sims w. induction n as [|n IH]; intros sims w H; cbn [trials] in H.
  - injection H as <- _. cbn [successive_draws map]. now rewrite app_nil_r.
  - unfold bind in H.
    destruct (trial (c0 :: later) rate sigma w) as [[v|e] w0] eqn:Ev; [|discriminate].
    destruct (trial_value _ _ _ _ _ _ _ Ev) as (shocks & Hl & Hdraw & Hsame & _ & Hv).
    rewrite (IH _ _ H), <- app_assoc. f_equal. cbn [app].
    destruct later as [|c1 later].
    + rewrite (Hsame eq_refl). destruct shocks; [|discriminate].
      cbn [length]. rewrite !successive_draws_empty. cbn [repeat map].
      now rewrite Hv.
    + destruct Hdraw as [Hs Hg]; [discriminate|].
      cbn [successive_draws].
      destruct (normal (np_state w) 1 sigma (length (c1 :: later))) as [draws g].
      cbn [fst snd] in Hs, Hg. cbn [map]. now rewrite Hv, Hs, Hg.
Qed.

Lemma seeded_state (seed : option Z) (w w0 : world) :
  match seed with
  | Some s0 => bind (np_random_seed s0) (fun _ => random_seed s0)
  | None => ret tt
  end w = (Ok tt, w0) ->
  np_state w0 = initial_np_state seed w.
Proof.
  destruct seed as [s0|]; unfold bind, np_random_seed, random_seed, ret.
  - destruct ((0 <=? s0) && (s0 <? 2 ^ 32))%Z; [|discriminate].
    intros H. injection H as <-. reflexivity.
  - intros H. injection H as <-. reflexivity.
Qed.

Lemma scenario_value_number (rate c0 : Q) (later shocks : list Q) :
  ~ 1 + rate == 0 ->
  exists q, scenario_value rate c0 later shocks = Finite q
            /\ q == c0 + disc (1 + rate) 1 (zip_with Qmult later shocks).
Proof.
  intros Hr. unfold scenario_value.
  destruct (npv_np_value rate (c0 * 1 :: zip_with Qmult later shocks) Hr)
    as (q & Hq & Hd).
  exists q. split; [exact Hq|]. rewrite Hd, disc_head. ring.
Qed.

(** X16.  A summary is only returned for a trial count of at least 1; it
    then records that count and holds exactly that many samples, in trial
    order: the k-th sample is the value of the scenario made with the k-th
    vector of draws, one draw per later cashflow, that numpy's sampler
    yields from its state at the start of the trials (the seeded state, or
    the state at the call without a seed), the outlay kept and each later
    cashflow multiplied by its draw.
    At a rate other than -1 that value is the number
    [c0 + sum_t later_t * shock_t / (1 + rate)^t]. *)
Theorem simulation_samples (c0 : Q) (later : list Q) (rate : Q) (n_sim : Z)
    (sigma : Q) (seed : option Z) (w : world) (s : summary) :
  fst (monte_carlo_npv np_sqrt (c0 :: later) rate n_sim sigma seed w) = Ok s ->
  (1 <= n_sim)%Z
  /\ s_n_sim s = n_sim
  /\ Z.of_nat (length (s_samples s)) = n_sim
  /\ s_samples s
     = map (scenario_value rate c0 later)
           (successive_draws (initial_np_state seed w) sigma (length later)
              (Z.to_nat n_sim))
  /\ (~ 1 + rate == 0 ->
      Forall2 (fun v shocks =>
                 exists q, v = Finite q
                           /\ q == c0 + disc (1 + rate) 1 (zip_with Qmult later shocks))
              (s_samples s)
              (successive_draws (initial_np_state seed w) sigma (length later)
                 (Z.to_nat n_sim))).
Proof.
  intros H. apply monte_carlo_npv_inv in H as (sims & w0 & w1 & Hseed & Ht & Hsum).
  pose proof (trials_length _ _ _ _ _ _ _ _ Ht) as Hlen. cbn [length Nat.add] in Hlen.
  assert (Hne : sims <> []).
  { intros ->. rewrite (proj2 (proj2 (proj2 (summarize_empty np_sqrt n_sim)))) in Hsum.
    discriminate. }
  apply summarize_fields in Hsum as (Hn & Hsamples & _).
  rewrite Hn, Hsamples.
  assert (Hpos : (1 <= n_sim)%Z).
  { destruct sims; [congruence|]. cbn [length] in Hlen. lia. }
  split; [exact Hpos|]. split; [reflexivity|]. split; [lia|].
  apply trials_samples in Ht. cbn [app] in Ht.
  rewrite (seeded_state _ _ _ Hseed) in Ht.
  split; [exact Ht|].
  intros Hr. rewrite Ht.
  generalize (successive_draws (initial_np_state seed w) sigma (length later)
                (Z.to_nat n_sim)).
  induction l as [|shocks l IH]; cbn [map]; constructor; [|exact IH].
  destruct (scenario_value_number rate c0 later shocks Hr) as (q & Hq & Hd).
  exists q. split; assumption.
Qed.

Lemma trial_keeps_python_state (cf : list Q) (rate sigma : Q) (w : world) :
  py_state (snd (trial cf rate sigma w)) = py_state w.
Proof.
  unfold trial, draw_shocks, bind, np_random_normal, ret.
  destruct (1 <? length cf)%nat; [|reflexivity].
  destruct (Qltb sigma 0); [reflexivity|].
  destruct (normal (np_state w) 1 sigma (length cf - 1)) as [draws g].
  reflexivity.
Qed.

Lemma trials_keep_python_state (cf : list Q) (rate sigma : Q) (n : nat)
    (sims : list float64) (w : world) :
  py_state (snd (trials cf rate sigma n sims w)) = py_state w.
Proof.
  revert sims w. induction n as [|n IH]; intros sims w; cbn [trials]; [reflexivity|].
  unfold bind. pose proof (trial_keeps_python_state cf rate sigma w) as Ht.
  destruct (trial cf rate sigma w) as [[v|e] w0]; cbn in Ht.
  - now rewrite IH.
  - exact Ht.
Qed.

(** X17.  The simulator uses Python's [random] generator only to seed it:
    without a seed its state is left as it was; with a seed that numpy
    accepts it ends as [random.seed(seed)] set it; and a seed that numpy
    rejects makes the call raise [ValueError] with both generators
    untouched. *)
Theorem simulation_generator_states (cf : list Q) (rate : Q) (n_sim : Z)
    (sigma : Q) (w : world) :
  py_state (snd (monte_carlo_npv np_sqrt cf rate n_sim sigma None w)) = py_state w
  /\ (forall seed, (0 <= seed < 2 ^ 32)%Z ->
        py_state (snd (monte_carlo_npv np_sqrt cf rate n_sim sigma (Some seed) w))
        = py_seed seed)
  /\ (forall seed, ~ (0 <= seed < 2 ^ 32)%Z ->
        monte_carlo_npv np_sqrt cf rate n_sim sigma (Some seed) w
        = (Raise ValueError, w)).
Proof.
  assert (Hrun : forall w0,
             py_state (snd (bind (trials cf rate sigma (Z.to_nat n_sim) [])
                                 (fun sims => lift (summarize np_sqrt n_sim sims)) w0))
             = py_state w0).
  { intros w0. unfold bind, lift.
    pose proof (trials_keep_python_state cf rate sigma (Z.to_nat n_sim) [] w0) as Ht.
    destruct (trials cf rate sigma (Z.to_nat n_sim) [] w0) as [[sims|e] w1];
      exact Ht. }
  split; [|split].
  - unfold monte_carlo_npv. unfold bind at 1. unfold ret at 1. apply Hrun.
  - intros seed Hv. unfold monte_carlo_npv. unfold bind at 1. unfold bind at 1.
    unfold np_random_seed, random_seed.
    assert (((0 <=? seed) && (seed <? 2 ^ 32))%Z = true) as ->.
    { apply andb_true_iff. split; [apply Z.leb_le | apply Z.ltb_lt]; lia. }
    rewrite Hrun. reflexivity.
  - intros seed Hv. unfold monte_carlo_npv. unfold bind at 1. unfold bind at 1.
    unfold np_random_seed.
    assert (((0 <=? seed) && (seed <? 2 ^ 32))%Z = false) as ->; [|reflexivity].
    apply andb_false_iff.
    destruct (Z.leb_spec 0 seed); [right; apply Z.ltb_ge; lia | now left].
Qed.
End SimulatorProperties.

Lemma simulation_samples_witness :
  exists s,
    fst (@monte_carlo_npv lcg_source approx_sqrt [-1000; 600; 600] (1 # 10) 5
           (15 # 100) (Some 42%Z) world0) = Ok s
    /\ Z.of_nat (length (s_samples s)) = 5%Z
    /\ s_samples s
       = map (scenario_value (1 # 10) (-1000) [600; 600])
             (@successive_draws lcg_source (@np_seed lcg_source 42) (15 # 100) 2 5).
Proof.
  destruct (fst (@monte_carlo_npv lcg_source approx_sqrt [-1000; 600; 600] (1 # 10) 5
                   (15 # 100) (Some 42%Z) world0)) as [s|e] eqn:H;
    [|vm_compute in H; discriminate].
  exists s. split; [reflexivity|].
  destruct (@simulation_samples lcg_source approx_sqrt (-1000) [600; 600] (1 # 10) 5
              (15 # 100) (Some 42%Z) world0 s H) as (_ & _ & Hl & Hs & _).
  split; [exact Hl | exact Hs].
Defined.

(** ** The evaluator *)

Lemma linspace_length (a b : Q) (n : nat) : length (linspace a b n) = n.
Proof.
  destruct n as [|[|d]]; [reflexivity | reflexivity |].
  unfold linspace. rewrite length_app, length_map, length_seq. simpl. lia.
Qed.

Section EvaluatorProperties.
Context `{RS : RandomSource} (np_sqrt : Q -> Q).

(** X18.  At a TMAR of -1, on a sequence with a period after t=0,
    [evaluate_project] raises [ZeroDivisionError] at its first statement:
    no report is built, nothing is simulated and the generators are left as
    they were, whatever the simulation settings. *)
Theorem evaluation_stops_at_rate_minus_one (cf : list Q) (tmar : Q)
    (montecarlo : bool) (mc_nsim : Z) (mc_sigma : Q) (mc_seed : option Z)
    (w : world) :
  1 + tmar == 0 -> (2 <= length cf)%nat ->
  evaluate_project np_sqrt cf tmar montecarlo mc_nsim mc_sigma mc_seed w
  = (Raise ZeroDivisionError, w).
Proof.
  intros Hz Hl. unfold evaluate_project. unfold bind at 1. unfold lift at 1.
  now rewrite (proj1 (npv_outcome tmar cf) (conj Hz Hl)).
Qed.

Lemma evaluate_project_profile (cf : list Q) (tmar : Q) (montecarlo : bool)
    (mc_nsim : Z) (mc_sigma : Q) (mc_seed : option Z) (w : world) (rep : report) :
  fst (evaluate_project np_sqrt cf tmar montecarlo mc_nsim mc_sigma mc_seed w)
  = Ok rep ->
  r_npv_profile rep
  = npv_profile cf
      (linspace (if Qltb 0 (tmar - (2 # 10)) then tmar - (2 # 10) else 0)
                (tmar + (2 # 10)) 41).
Proof.
  unfold evaluate_project.
  destruct (npv tmar cf) as [van|e]; [|discriminate].
  destruct (benefit_cost_ratio cf tmar) as [bc|e]; [|discriminate].
  unfold bind, lift, ret. cbv beta iota zeta.
  destruct montecarlo.
  - destruct (monte_carlo_npv np_sqrt cf tmar mc_nsim mc_sigma mc_seed w)
      as [[s|e] w']; [|discriminate].
    cbn. intros H. injection H as <-. reflexivity.
  - cbn. intros H. injection H as <-. reflexivity.
Qed.

(** X19.  The profile of a report holds 41 points: in grid order, the
    rates of [np.linspace(max(0, tmar - 0.2), tmar + 0.2, 41)], each with
    the value at that rate as numpy computes it.  At a grid rate other than
    -1 the value is the discounted sum; a grid rate of -1 does not stop the
    evaluation: on a sequence with a period after t=0 its point holds a
    value that is not a number. *)
Theorem profile_of_report (cf : list Q) (tmar : Q) (montecarlo : bool)
    (mc_nsim : Z) (mc_sigma : Q) (mc_seed : option Z) (w : world) (rep : report) :
  fst (evaluate_project np_sqrt cf tmar montecarlo mc_nsim mc_sigma mc_seed w)
  = Ok rep ->
  length (r_npv_profile rep) = 41%nat
  /\ map fst (r_npv_profile rep)
     = linspace (if Qltb 0 (tmar - (2 # 10)) then tmar - (2 # 10) else 0)
                (tmar + (2 # 10)) 41
  /\ List.Forall
       (fun p =>
          snd p = npv_np (fst p) cf
          /\ (~ 1 + fst p == 0 ->
              exists v, snd p = Finite v /\ v == disc (1 + fst p) 0 cf)
          /\ (1 + fst p == 0 -> (2 <= length cf)%nat -> ~ is_finite (snd p)))
       (r_npv_profile rep).
Proof.
  intros H. rewrite (evaluate_project_profile _ _ _ _ _ _ _ _ H).
  unfold npv_profile.
  generalize (linspace (if Qltb 0 (tmar - (2 # 10)) then tmar - (2 # 10) else 0)
                (tmar + (2 # 10)) 41) (linspace_length
                (if Qltb 0 (tmar - (2 # 10)) then tmar - (2 # 10) else 0)
                (tmar + (2 # 10)) 41).
  intros grid Hlen.
  split; [now rewrite length_map|]. split.
  - rewrite map_map. cbn [fst]. apply map_id.
  - apply List.Forall_forall. intros p Hp. apply in_map_iff in Hp as (t & <- & _).
    cbn [fst snd]. split; [reflexivity|].
    destruct (npv_np_outcome t cf) as [Hbad Hgood]. split.
    + intros Ht. apply Hgood. tauto.
    + intros Ht Hl. apply Hbad. split; assumption.
Qed.
End EvaluatorProperties.

Lemma evaluation_stops_at_rate_minus_one_witness :
  @evaluate_project lcg_source approx_sqrt [-1000; 600; 600] (-1) true 1000
    (15 # 100) (Some 42%Z) world0
  = (Raise ZeroDivisionError, world0).
Proof.
  apply (@evaluation_stops_at_rate_minus_one lcg_source approx_sqrt
           [-1000; 600; 600] (-1) true 1000 (15 # 100) (Some 42%Z) world0).
  - reflexivity.
  - cbn [length]. lia.
Defined.

Lemma profile_of_report_witness :
  exists rep p,
    fst (@evaluate_project lcg_source approx_sqrt [-1000; 1100] (- (12 # 10)) false
           1000 (15 # 100) None world0) = Ok rep
    /\ length (r_npv_profile rep) = 41%nat
    /\ nth_error (r_npv_profile rep) 40 = Some p
    /\ 1 + fst p == 0
    /\ ~ is_finite (snd p).
Proof.
  destruct (fst (@evaluate_project lcg_source approx_sqrt [-1000; 1100] (- (12 # 10))
                   false 1000 (15 # 100) None world0)) as [rep|e] eqn:H;
    [|vm_compute in H; discriminate].
  destruct (@profile_of_report lcg_source approx_sqrt [-1000; 1100] (- (12 # 10))
              false 1000 (15 # 100) None world0 rep H) as (Hlen & Hrates & Hall).
  destruct (nth_error (r_npv_profile rep) 40) as [p|] eqn:Ep;
    [|apply nth_error_None in Ep; rewrite Hlen in Ep; lia].
  assert (Ht : 1 + fst p == 0).
  { pose proof (map_nth_error fst 40 (r_npv_profile rep) Ep) as Hn.
    rewrite Hrates in Hn. destruct p as [t v]. cbn [fst] in Hn |- *.
    vm_compute in Hn. injection Hn as <-. reflexivity. }
  exists rep, p. split; [reflexivity|]. split; [exact Hlen|]. split; [exact Ep|].
  split; [exact Ht|].
  rewrite List.Forall_forall in Hall.
  destruct (Hall p (nth_error_In _ _ Ep)) as (_ & _ & Hbad).
  apply Hbad; [exact Ht | cbn [length]; lia].
Defined.

(** ** Further properties of the ranking *)








(** What [safe_normalize] returns, in terms of the extremes of the array. *)
Lemma safe_normalize_inv (arr nv : list Q) :
  safe_normalize arr = Ok nv ->
  exists mn mx,
    is_min mn arr /\ is_max mx arr /\ mn <= mx
    /\ nv = map (fun x => if Qeq_bool mx mn then 0 else (x - mn) / (mx - mn)) arr.
Proof.
  intros H. assert (Hne : arr <> []) by (intros ->; cbn in H; discriminate).
  destruct (np_max_spec arr Hne) as (mx & Hmx & Imx).
  destruct (np_min_spec arr Hne) as (mn & Hmn & Imn).
  unfold safe_normalize in H. rewrite Hmx, Hmn in H. cbn [rbind] in H.
  exists mn, mx. split; [exact Imn|]. split; [exact Imx|]. split.
  - destruct Imn as [_ Hall]. destruct Imx as [Hin _].
    rewrite List.Forall_forall in Hall. exact (Hall mx Hin).
  - destruct (Qeq_bool mx mn); injection H as <-; reflexivity.
Qed.

Lemma nth_map_overflow (g : Q -> Q) (l : list Q) (i : nat) :
  nth_error l i = None -> nth i (map g l) 0 = 0.
Proof.
  intros H. apply nth_overflow. rewrite length_map. now apply nth_error_None.
Qed.

Lemma safe_normalize_unit (arr nv : list Q) (i : nat) :
  safe_normalize arr = Ok nv -> 0 <= nth i nv 0 <= 1.
Proof.
  intros H. destruct (safe_normalize_inv _ _ H) as (mn & mx & Imn & Imx & Hle & ->).
  destruct (nth_error arr i) as [x|] eqn:Hx;
    [|rewrite (nth_map_overflow _ _ _ Hx); split; lra].
  rewrite (nth_map_indexed _ _ _ _ Hx).
  destruct (Qeq_bool mx mn) eqn:E; [split; lra|].
  apply Qeq_bool_ne in E.
  assert (Hin : List.In x arr) by (eapply nth_error_In; eauto).
  destruct Imn as [_ Hmn]. destruct Imx as [_ Hmx].
  rewrite List.Forall_forall in Hmn, Hmx.
  pose proof (Hmn x Hin) as H1. pose proof (Hmx x Hin) as H2. cbv beta in H1, H2.
  assert (Hd : 0 < mx - mn).
  { destruct (Qlt_le_dec mn mx); [lra|]. exfalso. apply E. lra. }
  split.
  - apply Qle_shift_div_l; [exact Hd | lra].
  - apply Qle_shift_div_r; [exact Hd | lra].
Qed.

(** Normalisation keeps the order of the values. *)
Lemma safe_normalize_monotone (arr nv : list Q) (i j : nat) (x y : Q) :
  safe_normalize arr = Ok nv ->
  nth_error arr i = Some x -> nth_error arr j = Some y ->
  x <= y -> nth i nv 0 <= nth j nv 0.
Proof.
  intros H Hx Hy Hxy.
  destruct (safe_normalize_inv _ _ H) as (mn & mx & Imn & Imx & Hle & ->).
  rewrite (nth_map_indexed _ _ _ _ Hx), (nth_map_indexed _ _ _ _ Hy).
  destruct (Qeq_bool mx mn) eqn:E; [lra|].
  apply Qeq_bool_ne in E.
  assert (Hd : 0 < mx - mn).
  { destruct (Qlt_le_dec mn mx); [lra|]. exfalso. apply E. lra. }
  unfold Qdiv. apply Qmult_le_compat_r; [lra|].
  apply Qinv_le_0_compat. lra.
Qed.

(** An array holding one value only is normalised to zeros. *)
Lemma safe_normalize_constant (arr nv : list Q) (i : nat) :
  safe_normalize arr = Ok nv ->
  (forall x y, List.In x arr -> List.In y arr -> x == y) ->
  nth i nv 0 == 0.
Proof.
  intros H Hc.
  destruct (safe_normalize_inv _ _ H) as (mn & mx & Imn & Imx & Hle & ->).
  destruct (nth_error arr i) as [x|] eqn:Hx;
    [|rewrite (nth_map_overflow _ _ _ Hx); reflexivity].
  rewrite (nth_map_indexed _ _ _ _ Hx).
  destruct (Qeq_bool mx mn) eqn:E; [reflexivity|].
  apply Qeq_bool_ne in E. exfalso. apply E.
  apply Hc; [apply Imx | apply Imn].
Qed.



(** The result of [compare_projects], read off the code. *)
Lemma compare_projects_entries (projects : list project)
    (weights : option (gmap string Q)) (out : list entry) :
  compare_projects projects weights = Ok out ->
  exists nv nt nb,
    safe_normalize (map (fun p => metric_or_zero (p_metrics p) "van") projects) = Ok nv
    /\ safe_normalize (map (fun p => metric_or_zero (p_metrics p) "tir") projects) = Ok nt
    /\ safe_normalize (map (fun p => metric_or_zero (p_metrics p) "b_c") projects) = Ok nb
    /\ out = stable_sort (fun y x => Qltb (e_score x) (e_score y))
               (score_entries projects (effective_weights weights)
                  (map (fun p => metric_or_zero (p_metrics p) "van") projects)
                  (map (fun p => metric_or_zero (p_metrics p) "tir") projects)
                  (map (fun p => metric_or_zero (p_metrics p) "b_c") projects)
                  nv nt nb).
Proof.
  unfold compare_projects, effective_weights.
  destruct (safe_normalize (map (fun p => metric_or_zero (p_metrics p) "van") projects))
    as [nv|e]; [|discriminate].
  destruct (safe_normalize (map (fun p => metric_or_zero (p_metrics p) "tir") projects))
    as [nt|e]; [|discriminate].
  destruct (safe_normalize (map (fun p => metric_or_zero (p_metrics p) "b_c") projects))
    as [nb|e]; [|discriminate].
  cbn [rbind]. intros H. injection H as <-. exists nv, nt, nb. auto.
Qed.

Lemma compare_projects_total (projects : list project)
    (weights : option (gmap string Q)) :
  projects <> [] -> exists out, compare_projects projects weights = Ok out.
Proof.
  intros Hne. unfold compare_projects.
  assert (Hmap : forall g : project -> Q, map g projects <> []).
  { intros g. destruct projects; [congruence | discriminate]. }
  destruct (safe_normalize_spec _ (Hmap (fun p => metric_or_zero (p_metrics p) "van")))
    as (nv & -> & _).
  destruct (safe_normalize_spec _ (Hmap (fun p => metric_or_zero (p_metrics p) "tir")))
    as (nt & -> & _).
  destruct (safe_normalize_spec _ (Hmap (fun p => metric_or_zero (p_metrics p) "b_c")))
    as (nb & -> & _).
  cbn [rbind]. eauto.
Qed.

(** Every entry built comes from the project at its index. *)
Lemma score_entries_In (projects : list project) (weights : gmap string Q)
    (nv nt nb : list Q) (e : entry) :
  List.In e (score_entries projects weights
               (map (fun p => metric_or_zero (p_metrics p) "van") projects)
               (map (fun p => metric_or_zero (p_metrics p) "tir") projects)
               (map (fun p => metric_or_zero (p_metrics p) "b_c") projects)
               nv nt nb) ->
  exists i p,
    nth_error projects i = Some p
    /\ e_name e = entry_name i p
    /\ e_van e = metric_or_zero (p_metrics p) "van"
    /\ e_tir e = metric_or_zero (p_metrics p) "tir"
    /\ e_b_c e = metric_or_zero (p_metrics p) "b_c"
    /\ e_score e = weight weights "van" * nth i nv 0
                   + weight weights "tir" * nth i nt 0
                   + weight weights "b_c" * nth i nb 0.
Proof.
  intros Hin. apply In_nth_error in Hin as (i & Hi).
  destruct (nth_error projects i) as [p|] eqn:Hp.
  - destruct (score_entries_nth projects weights nv nt nb i p Hp) as (e' & He' & H).
    rewrite Hi in He'. injection He' as <-. exists i, p.
    split; [exact Hp | exact H].
  - exfalso. apply nth_error_None in Hp.
    assert (Hlt : (i < length (score_entries projects weights
               (map (fun p => metric_or_zero (p_metrics p) "van") projects)
               (map (fun p => metric_or_zero (p_metrics p) "tir") projects)
               (map (fun p => metric_or_zero (p_metrics p) "b_c") projects)
               nv nt nb))%nat) by (apply nth_error_Some; congruence).
    rewrite score_entries_length in Hlt. lia.
Qed.

Lemma score_entries_names (projects : list project) (weights : gmap string Q)
    (vans tirs bcs nv nt nb : list Q) :
  map e_name (score_entries projects weights vans tirs bcs nv nt nb)
  = map (fun '(i, p) => entry_name i p) (enumerate projects).
Proof.
  unfold score_entries. rewrite map_map. apply map_ext. now intros [i p].
Qed.

Lemma metric_values_nth (projects : list project) (key : string) (i : nat)
    (p : project) :
  nth_error projects i = Some p ->
  nth_error (map (fun p => metric_or_zero (p_metrics p) key) projects) i
  = Some (metric_or_zero (p_metrics p) key).
Proof.
  intros Hp. exact (map_nth_error (fun p => metric_or_zero (p_metrics p) key) _ _ Hp).
Qed.

Lemma weighted_le (w a b : Q) : 0 <= w -> a <= b -> w * a <= w * b.
Proof.
  intros Hw Hab. rewrite !(Qmult_comm w). now apply Qmult_le_compat_r.
Qed.

Lemma compare_projects_score_bounds (projects : list project)
    (weights : option (gmap string Q)) (out : list entry) :
  0 <= weight (effective_weights weights) "van" ->
  0 <= weight (effective_weights weights) "tir" ->
  0 <= weight (effective_weights weights) "b_c" ->
  compare_projects projects weights = Ok out ->
  List.Forall (fun e => 0 <= e_score e
                        <= weight (effective_weights weights) "van"
                           + weight (effective_weights weights) "tir"
                           + weight (effective_weights weights) "b_c") out.
Proof.
  intros Hv Ht Hb H.
  destruct (compare_projects_entries _ _ _ H) as (nv & nt & nb & Hnv & Hnt & Hnb & ->).
  eapply Permutation_Forall; [symmetry; apply stable_sort_perm|].
  apply List.Forall_forall. intros e He.
  destruct (score_entries_In _ _ _ _ _ _ He) as (i & p & _ & _ & _ & _ & _ & Hs).
  rewrite Hs.
  destruct (safe_normalize_unit _ _ i Hnv) as [V0 V1].
  destruct (safe_normalize_unit _ _ i Hnt) as [T0 T1].
  destruct (safe_normalize_unit _ _ i Hnb) as [B0 B1].
  pose proof (weighted_le _ _ _ Hv V0). pose proof (weighted_le _ _ _ Hv V1).
  pose proof (weighted_le _ _ _ Ht T0). pose proof (weighted_le _ _ _ Ht T1).
  pose proof (weighted_le _ _ _ Hb B0). pose proof (weighted_le _ _ _ Hb B1).
  split; lra.
Qed.

(** X20.  With non-negative weights, on a non-empty collection, every score
    [compare_projects] returns lies between 0 and the sum of the three
    weights: between 0 and 1 for the default weights and for any weights
    that sum to 1. *)
Theorem scores_within_weight_total (projects : list project)
    (weights : option (gmap string Q)) :
  projects <> [] ->
  0 <= weight (effective_weights weights) "van" ->
  0 <= weight (effective_weights weights) "tir" ->
  0 <= weight (effective_weights weights) "b_c" ->
  exists out,
    compare_projects projects weights = Ok out
    /\ List.Forall (fun e => 0 <= e_score e
                             <= weight (effective_weights weights) "van"
                                + weight (effective_weights weights) "tir"
                                + weight (effective_weights weights) "b_c") out.
Proof.
  intros Hne Hv Ht Hb.
  destruct (compare_projects_total projects weights Hne) as (out & H).
  exists out. split; [exact H|].
  exact (compare_projects_score_bounds projects weights out Hv Ht Hb H).
Qed.

Lemma scores_within_weight_total_witness :
  exists out,
    compare_projects [project_a; project_b] None = Ok out
    /\ List.Forall (fun e => 0 <= e_score e <= 1) out.
Proof.
  destruct (scores_within_weight_total [project_a; project_b] None)
    as (out & H & Hb); [discriminate | vm_compute; discriminate ..|].
  exists out. split; [exact H|].
  eapply List.Forall_impl; [|exact Hb].
  intros e He. cbv beta in He.
  change (weight (effective_weights None) "van") with (5 # 10) in He.
  change (weight (effective_weights None) "tir") with (3 # 10) in He.
  change (weight (effective_weights None) "b_c") with (2 # 10) in He.
  split; lra.
Defined.

(** X21.  With non-negative weights the score respects dominance: of two
    entries of the returned ranking, one whose three metrics are each at
    least the other's has at least the other's score. *)
Theorem dominating_project_scores_higher (projects : list project)
    (weights : option (gmap string Q)) :
  projects <> [] ->
  0 <= weight (effective_weights weights) "van" ->
  0 <= weight (effective_weights weights) "tir" ->
  0 <= weight (effective_weights weights) "b_c" ->
  exists out,
    compare_projects projects weights = Ok out
    /\ forall e1 e2,
         List.In e1 out -> List.In e2 out ->
         e_van e1 <= e_van e2 -> e_tir e1 <= e_tir e2 -> e_b_c e1 <= e_b_c e2 ->
         e_score e1 <= e_score e2.
Proof.
  intros Hne Hv Ht Hb.
  destruct (compare_projects_total projects weights Hne) as (out & H).
  exists out. split; [exact H|].
  destruct (compare_projects_entries _ _ _ H) as (nv & nt & nb & Hnv & Hnt & Hnb & ->).
  intros e1 e2 H1 H2 Lv Lt Lb.
  apply (Permutation_in _ (stable_sort_perm _ _)) in H1.
  apply (Permutation_in _ (stable_sort_perm _ _)) in H2.
  destruct (score_entries_In _ _ _ _ _ _ H1) as (i & p & Hp & _ & Ev1 & Et1 & Eb1 & ->).
  destruct (score_entries_In _ _ _ _ _ _ H2) as (j & q & Hq & _ & Ev2 & Et2 & Eb2 & ->).
  rewrite Ev1, Ev2 in Lv. rewrite Et1, Et2 in Lt. rewrite Eb1, Eb2 in Lb.
  pose proof (safe_normalize_monotone _ _ i j _ _ Hnv
                (metric_values_nth _ "van" _ _ Hp) (metric_values_nth _ "van" _ _ Hq) Lv)
    as Mv.
  pose proof (safe_normalize_monotone _ _ i j _ _ Hnt
                (metric_values_nth _ "tir" _ _ Hp) (metric_values_nth _ "tir" _ _ Hq) Lt)
    as Mt.
  pose proof (safe_normalize_monotone _ _ i j _ _ Hnb
                (metric_values_nth _ "b_c" _ _ Hp) (metric_values_nth _ "b_c" _ _ Hq) Lb)
    as Mb.
  pose proof (weighted_le _ _ _ Hv Mv).
  pose proof (weighted_le _ _ _ Ht Mt).
  pose proof (weighted_le _ _ _ Hb Mb).
  lra.
Qed.

Lemma dominating_project_scores_higher_witness :
  exists out,
    compare_projects [project_a; project_b] None = Ok out
    /\ forall e1 e2,
         List.In e1 out -> List.In e2 out ->
         e_van e1 <= e_van e2 -> e_tir e1 <= e_tir e2 -> e_b_c e1 <= e_b_c e2 ->
         e_score e1 <= e_score e2.
Proof.
  apply (dominating_project_scores_higher [project_a; project_b] None);
    [discriminate | vm_compute; discriminate ..].
Defined.

Lemma stable_sort_already {A : Type} (stays_before : A -> A -> bool) (l : list A) :
  (forall a b, List.In a l -> List.In b l -> stays_before a b = false) ->
  stable_sort stays_before l = l.
Proof.
  induction l as [|x l IH]; intros H; [reflexivity|].
  cbn [stable_sort]. rewrite IH by (intros a b Ha Hb; apply H; now right).
  destruct l as [|y l]; [reflexivity|].
  cbn [insert_sorted]. rewrite H; [reflexivity | right; now left | now left].
Qed.

(** X22.  When all projects of a non-empty collection share the same three
    metrics, a single project in particular, [compare_projects] gives every
    entry the score 0, whatever the weights, and returns the entries in
    input order. *)
Theorem identical_projects_score_zero (projects : list project)
    (weights : option (gmap string Q)) :
  projects <> [] ->
  (forall p q, List.In p projects -> List.In q projects ->
               metric p "van" == metric q "van"
               /\ metric p "tir" == metric q "tir"
               /\ metric p "b_c" == metric q "b_c") ->
  exists out,
    compare_projects projects weights = Ok out
    /\ List.Forall (fun e => e_score e == 0) out
    /\ map e_name out = map (fun '(i, p) => entry_name i p) (enumerate projects).
Proof.
  intros Hne Hsame.
  destruct (compare_projects_total projects weights Hne) as (out & H).
  exists out. split; [exact H|].
  destruct (compare_projects_entries _ _ _ H) as (nv & nt & nb & Hnv & Hnt & Hnb & ->).
  assert (Hconst : forall key,
             (forall p q, List.In p projects -> List.In q projects ->
                          metric p key == metric q key) ->
             forall x y,
               List.In x (map (fun p => metric_or_zero (p_metrics p) key) projects) ->
               List.In y (map (fun p => metric_or_zero (p_metrics p) key) projects) ->
               x == y).
  { intros key Hk x y Hx Hy.
    apply in_map_iff in Hx as (p & <- & Hp). apply in_map_iff in Hy as (q & <- & Hq).
    rewrite !metric_or_zero_metric. now apply Hk. }
  assert (Hzero : List.Forall (fun e => e_score e == 0)
                    (score_entries projects (effective_weights weights)
                       (map (fun p => metric_or_zero (p_metrics p) "van") projects)
                       (map (fun p => metric_or_zero (p_metrics p) "tir") projects)
                       (map (fun p => metric_or_zero (p_metrics p) "b_c") projects)
                       nv nt nb)).
  { apply List.Forall_forall. intros e He.
    destruct (score_entries_In _ _ _ _ _ _ He) as (i & p & _ & _ & _ & _ & _ & ->).
    rewrite (safe_normalize_constant _ _ i Hnv)
      by (apply Hconst; intros p' q' Hp' Hq'; now apply Hsame).
    rewrite (safe_normalize_constant _ _ i Hnt)
      by (apply Hconst; intros p' q' Hp' Hq'; now apply Hsame).
    rewrite (safe_normalize_constant _ _ i Hnb)
      by (apply Hconst; intros p' q' Hp' Hq'; now apply Hsame).
    ring. }
  rewrite stable_sort_already.
  - split; [exact Hzero | apply score_entries_names].
  - intros a b Ha Hb. rewrite List.Forall_forall in Hzero.
    pose proof (Hzero a Ha) as Za. pose proof (Hzero b Hb) as Zb. cbv beta in Za, Zb.
    apply Qltb_ge. lra.
Qed.

Lemma identical_projects_score_zero_witness :
  exists out,
    compare_projects [project_a] None = Ok out
    /\ List.Forall (fun e => e_score e == 0) out
    /\ map e_name out = ["A"].
Proof.
  apply (identical_projects_score_zero [project_a] None); [discriminate|].
  intros p q [<-|[]] [<-|[]]. split; [reflexivity | split; reflexivity].
Defined.




